(** * The activity execution context of the BPMN engine

    A shallow embedding of [lib/activities/activity-execution.js] and the
    properties of its per-execution bookkeeping: identity assignment, input
    and output resolution, postponement handles, pending-flow caches and the
    state snapshot.

    JavaScript values are embedded as a small inductive type.  Plain objects
    carry the identity of their allocation, so that "the same object" and
    "an equal object" stay apart.  The closure variables of one call of
    [execution] are the mutable fields of the record [Context]; every method
    takes the context and returns its successor.  Collaborators that live
    outside the file (environment, form, parameter descriptors, activity
    hooks, completion callback, [Math.random]) are parameters; they are taken
    to return normally, so the only exceptions are the [TypeError]s of the
    file's own property reads and calls. *)

From Stdlib Require Import ZArith QArith Qround Qabs Lqa.
From Stdlib Require Import Hexadecimal HexadecimalString HexadecimalZ.
From stdpp Require Import base option list gmap strings fin_maps.

#[local] Set Warnings "-register-all,-clear-no-such-hyp".
#[local] Open Scope Z_scope.

(** ** JavaScript values *)

Inductive value :=
| VUndefined
| VNull
| VBool (b : bool)
| VNum (n : Z)
| VStr (s : string)
| VArr (items : list value)
| VObj (ref : nat) (props : gmap string value).

(** A plain object: the identity of its allocation and its own properties. *)
Record Obj := mkObj { obj_ref : nat; obj_props : gmap string value }.

Definition obj_value (o : Obj) : value := VObj (obj_ref o) (obj_props o).

(** ToBoolean. *)
Definition truthy (v : value) : bool :=
  match v with
  | VUndefined | VNull => false
  | VBool b => b
  | VNum n => negb (n =? 0)
  | VStr s => negb (String.eqb s "")
  | VArr _ | VObj _ _ => true
  end.

(** [v.k] for the property names the context reads ([loop], [isSequential],
    [pendingInbound], [pendingOutbound]).  A primitive has none of them; an
    array is embedded by its elements alone, so [VArr] stands for an array
    that was given no further property of its own, and an array that was
    given one is not among the values of this embedding. *)
Definition get_prop (v : value) (k : string) : value :=
  match v with
  | VObj _ m => default VUndefined (m !! k)
  | _ => VUndefined
  end.

(** [o[k] = v]. *)
Definition obj_set (o : Obj) (k : string) (v : value) : Obj :=
  mkObj (obj_ref o) (<[k := v]> (obj_props o)).

(** One source of [Object.assign(target, source)]: an absent source is
    skipped, the properties of a present one overwrite the target's. *)
Definition assign (target : Obj) (source : option Obj) : Obj :=
  match source with
  | None => target
  | Some s => mkObj (obj_ref target) (obj_props s ∪ obj_props target)
  end.

(** The own properties of an optional object. *)
Definition props_of (o : option Obj) : gmap string value :=
  match o with
  | Some x => obj_props x
  | None => ∅
  end.

(** Exceptions raised by the file's own property accesses and calls. *)
Inductive JsError := TypeError.

Inductive Completion (A : Type) :=
| Normal (a : A)
| Throw (e : JsError).
Arguments Normal {A} a.
Arguments Throw {A} e.

(** ** Sequence flows and arrays of them *)

(** An edge object. [flow_ref] is the identity of the object: two records are
    the same object exactly when they are equal, so [===] on edges is
    equality of records. *)
Record SequenceFlow := mkFlow {
  flow_ref : nat;
  flow_id : string;
  flow_isDefault : bool
}.

#[global] Instance SequenceFlow_eq_dec : EqDecision SequenceFlow.
Proof. solve_decision. Defined.

Section Arrays.
Context {A : Type} `{EqDecision A}.

(** [arr.indexOf(x)]: the first index holding [x], or -1. *)
Fixpoint indexOf (x : A) (arr : list A) : Z :=
  match arr with
  | [] => -1
  | y :: rest =>
      if decide (y = x) then 0
      else let i := indexOf x rest in if i <? 0 then -1 else i + 1
  end.

(** [arr.splice(start, 1)]: a negative start counts from the end, a start
    past the end removes nothing. *)
Definition splice1 (start : Z) (arr : list A) : list A :=
  let len := Z.of_nat (length arr) in
  let s := if start <? 0 then Z.max (len + start) 0 else Z.min start len in
  take (Z.to_nat s) arr ++ drop (S (Z.to_nat s)) arr.

(** [arr.push(x)]. *)
Definition push (arr : list A) (x : A) : list A := arr ++ [x].
End Arrays.

(** An array of edges may hold [undefined] ([None]) once it was restored from
    identifiers. *)
Definition FlowArray := list (option SequenceFlow).

(** The identifier at each position of an array of edges, none where the
    array holds [undefined]. *)
Definition identifiers (pending : FlowArray) : list (option string) :=
  (λ f : option SequenceFlow, flow_id <$> f) <$> pending.

(** [edges.slice()]. *)
Definition slice (edges : list SequenceFlow) : FlowArray := map Some edges.

(** [flow.id === stateFlowId]: only a string can equal an edge identifier. *)
Definition id_matches (stateFlowId : value) (flow : SequenceFlow) : bool :=
  match stateFlowId with
  | VStr s => String.eqb (flow_id flow) s
  | _ => false
  end.

(** ** The world outside the context *)

Inductive Event := Called (callee : string) (args : list value).

(** [next_ref] numbers object allocations, [random] is the sequence of values
    [Math.random()] will return (doubles, so rationals with a power of two
    as denominator), [trace] records calls of recording callbacks. *)
Record World := mkWorld {
  next_ref : nat;
  random : nat → Q;
  random_calls : nat;
  trace : list Event
}.

Definition M (A : Type) : Type := World → A * World.

(** [{}]: a fresh empty object. *)
Definition new_object : M Obj := λ w,
  (mkObj (next_ref w) ∅,
   mkWorld (S (next_ref w)) (random w) (random_calls w) (trace w)).

(** [Math.random()]. *)
Definition Math_random : M Q := λ w,
  (random w (random_calls w),
   mkWorld (next_ref w) (random w) (S (random_calls w)) (trace w)).

(** A completion callback handed to [postpone]. *)
Definition Callback := list value → World → World.

(** The callback that records each of its invocations in the trace. *)
Definition recorder (name : string) : Callback := λ args w,
  mkWorld (next_ref w) (random w) (random_calls w)
          (trace w ++ [Called name args]).

(** ** Collaborators *)

(** Parameter descriptor of [io.input] / [io.output]. *)
Record ParameterDescriptor := mkParameterDescriptor {
  parm_name : string;
  getInputValue : value → Obj → value;
  getOutputValue : value → Obj → value
}.

Record IO := mkIO {
  io_input : option (list ParameterDescriptor);
  io_output : option (list ParameterDescriptor)
}.

(** The graph node. [act_form] is [form.formData] when a form is declared;
    [act_getState] is the optional hook; [act_inbound] may be missing. *)
Record Activity := mkActivity {
  act_id : string;
  act_type : string;
  act_form : option value;
  act_io : option IO;
  act_inbound : option (list SequenceFlow);
  act_outbound : list SequenceFlow;
  act_getState : option (M Obj)
}.

(** The environment: [getVariablesAndServices(extra?)] and [clone(message)]. *)
Class Environment (Env : Type) := {
  getVariablesAndServices : Env → option Obj → M Obj;
  clone : Env → value → Env
}.

(** The module [./Form]: [new Form(formData)] and [formInstance.init(input,
    environment)], which returns the instance once it is bound. *)
Record FormModule (Env : Type) := mkFormModule {
  Form_new : value → M value;
  Form_init : value → Obj → Env → M value
}.
Arguments Form_new {Env} _ _ _.
Arguments Form_init {Env} _ _ _ _ _.

(** ** The state monad of the world *)

#[global] Instance M_ret : MRet M := λ A a w, (a, w).
#[global] Instance M_bind : MBind M := λ A B f m w, let '(a, w') := m w in f a w'.

(** Unfolds the sequencing of the world. *)
Ltac run_world := unfold mbind, M_bind, mret, M_ret.

(** ** Identity *)

(** [n.toString(16)] of an integer: lower-case digits, a minus sign in front
    of a negative number. *)
Definition toString16 (n : Z) : string :=
  NilZero.string_of_int (Z.to_hex_int n).

(** Numbers are doubles: the product [Math.random() * (max - min)] is the
    double nearest to the exact product, ties going to the even significand.
    [pow2 e] is 2^e. *)
Definition pow2 (e : Z) : Q :=
  if 0 <=? e then inject_Z (2 ^ e) else 1 # Z.to_pos (2 ^ (- e)).

(** The exponent [e] of a positive [x]: 2^e <= x < 2^(e+1). *)
Definition binade (x : Q) : Z :=
  if Qle_bool 1 x then Z.log2 (Qfloor x) else - Z.log2_up (Qceiling (/ x)).

(** The integer nearest to [q], the even one of the two when [q] lies half
    way between them. *)
Definition round_half_even (q : Q) : Z :=
  let f := Qfloor q in
  match (q - inject_Z f ?= 1 # 2)%Q with
  | Lt => f
  | Gt => f + 1
  | Eq => if Z.even f then f else f + 1
  end.

(** The binary64 value of a real [x]: a significand of 53 bits, exponents
    from -1022 up (below that the spacing stays 2^-1074).  Magnitudes from
    2^1024 on, which a double rounds to infinity, do not occur here: the
    products taken are below 2^20. *)
Definition round_double (x : Q) : Q :=
  if Qeq_bool x 0 then 0%Q
  else
    let a := Qabs x in
    let e := Z.max (binade a) (-1022) in
    let ulp := pow2 (e - 52) in
    let m := round_half_even (a / ulp) in
    ((if Qle_bool 0 x then inject_Z m else - inject_Z m) * ulp)%Q.

(** [x * y] on doubles. *)
Definition double_mul (x y : Q) : Q := round_double (x * y).

(** [Math.floor] of a double is exact, and so is adding [min] to the
    integer it gives. *)
Definition generateId : M string :=
  let min := 11000 in
  let max := 999999 in
  r ← Math_random;
  let rand := Qfloor (double_mul r (inject_Z (max - min))) + min in
  mret (toString16 rand).

(** The integer the next call of [generateId] turns into a suffix. *)
Definition next_rand (w : World) : Z :=
  Qfloor (double_mul (random w (random_calls w)) (inject_Z 988999)) + 11000.

(** ** The execution context *)

(** The handles [postpone] installs, as the closures they are. *)
Definition Handle := list value → World → World.

(** [args[i]] of a call, [undefined] past the arguments given. *)
Definition arg (i : nat) (args : list value) : value := nth i args VUndefined.

Section Execution.
Context {Env : Type} `{Environment Env} (Form : FormModule Env).

(** The object [executionContext] with the variables its methods close
    over.  The first block is fixed by the call of [execution] ([type] and
    [hasOutputParameters] are read off the activity); [stopped] to
    [inputResult] are the [let] variables, [stopped] being [false] while the
    variable is [undefined]; the last four are the properties [postpone]
    adds. *)
Record ExecutionContext := mkContext {
  id : string;
  activity : Activity;
  message : value;
  environment : Env;
  inboundFlow : option SequenceFlow;
  rootFlow : value;
  stopped : bool;
  pendingInbound : option FlowArray;
  pendingOutbound : option FlowArray;
  savedState : option Obj;
  resultData : value;
  inputResult : option Obj;
  form : option value;
  error : option Handle;
  signal : option Handle;
  complete : option Handle
}.

Definition set_stopped (v : bool) (c : ExecutionContext) :=
  mkContext (id c) (activity c) (message c) (environment c) (inboundFlow c)
    (rootFlow c) v (pendingInbound c) (pendingOutbound c) (savedState c)
    (resultData c) (inputResult c) (form c) (error c) (signal c) (complete c).
Definition set_pendingInbound (v : option FlowArray) (c : ExecutionContext) :=
  mkContext (id c) (activity c) (message c) (environment c) (inboundFlow c)
    (rootFlow c) (stopped c) v (pendingOutbound c) (savedState c)
    (resultData c) (inputResult c) (form c) (error c) (signal c) (complete c).
Definition set_pendingOutbound (v : option FlowArray) (c : ExecutionContext) :=
  mkContext (id c) (activity c) (message c) (environment c) (inboundFlow c)
    (rootFlow c) (stopped c) (pendingInbound c) v (savedState c)
    (resultData c) (inputResult c) (form c) (error c) (signal c) (complete c).
Definition set_savedState (v : option Obj) (c : ExecutionContext) :=
  mkContext (id c) (activity c) (message c) (environment c) (inboundFlow c)
    (rootFlow c) (stopped c) (pendingInbound c) (pendingOutbound c) v
    (resultData c) (inputResult c) (form c) (error c) (signal c) (complete c).
Definition set_resultData (v : value) (c : ExecutionContext) :=
  mkContext (id c) (activity c) (message c) (environment c) (inboundFlow c)
    (rootFlow c) (stopped c) (pendingInbound c) (pendingOutbound c)
    (savedState c) v (inputResult c) (form c) (error c) (signal c)
    (complete c).
Definition set_inputResult (v : option Obj) (c : ExecutionContext) :=
  mkContext (id c) (activity c) (message c) (environment c) (inboundFlow c)
    (rootFlow c) (stopped c) (pendingInbound c) (pendingOutbound c)
    (savedState c) (resultData c) v (form c) (error c) (signal c)
    (complete c).
Definition set_form (v : option value) (c : ExecutionContext) :=
  mkContext (id c) (activity c) (message c) (environment c) (inboundFlow c)
    (rootFlow c) (stopped c) (pendingInbound c) (pendingOutbound c)
    (savedState c) (resultData c) (inputResult c) v (error c) (signal c)
    (complete c).
Definition set_handles (e s k : Handle) (c : ExecutionContext) :=
  mkContext (id c) (activity c) (message c) (environment c) (inboundFlow c)
    (rootFlow c) (stopped c) (pendingInbound c) (pendingOutbound c)
    (savedState c) (resultData c) (inputResult c) (form c) (Some e) (Some s)
    (Some k).

(** The constants the methods read off the activity. *)
Definition inbound (c : ExecutionContext) := act_inbound (activity c).
Definition outbound (c : ExecutionContext) := act_outbound (activity c).
Definition pendingFork (c : ExecutionContext) : bool :=
  bool_decide (1 < length (outbound c))%nat.
Definition inputParameters (c : ExecutionContext) :=
  io ← act_io (activity c); io_input io.
Definition outputParameters (c : ExecutionContext) :=
  io ← act_io (activity c); io_output io.

(** [message && message.loop && !message.isSequential] *)
Definition parallel_loop (message : value) : bool :=
  truthy message && truthy (get_prop message "loop")
  && negb (truthy (get_prop message "isSequential")).

Definition execution (activity : Activity) (message : value)
    (environment : Env) (inboundFlow : option SequenceFlow)
    (rootFlow : value) : M ExecutionContext :=
  let activityId := act_id activity in
  id ← (if parallel_loop message
        then suffix ← generateId; mret (activityId +:+ "_" +:+ suffix)
        else mret activityId);
  mret (mkContext id activity message environment inboundFlow rootFlow
          false None None None VUndefined None None None None None).

(** *** State restore *)

(** [ids.map((stateFlowId) => edges.find((flow) => flow.id === stateFlowId))]
    for the value [ids] found in the persisted state.  Anything but an array
    has no [map]; on a missing edge list the callback's [edges.find] throws
    at the first element. *)
Definition restore (edges : option (list SequenceFlow)) (ids : value)
    : Completion FlowArray :=
  match ids with
  | VArr [] => Normal []
  | VArr items =>
      match edges with
      | Some flows =>
          Normal (map (λ stateFlowId, find (id_matches stateFlowId) flows) items)
      | None => Throw TypeError
      end
  | _ => Throw TypeError
  end.

Definition applyState (state : value) (c : ExecutionContext)
    : Completion unit * ExecutionContext :=
  match state with
  | VUndefined | VNull => (Throw TypeError, c)
  | _ =>
      let step1 :=
        if truthy (get_prop state "pendingInbound")
        then match restore (inbound c) (get_prop state "pendingInbound") with
             | Normal arr => (Normal (), set_pendingInbound (Some arr) c)
             | Throw e => (Throw e, c)
             end
        else (Normal (), c) in
      match step1 with
      | (Normal _, c1) =>
          if truthy (get_prop state "pendingOutbound")
          then match restore (Some (outbound c1))
                       (get_prop state "pendingOutbound") with
               | Normal arr => (Normal (), set_pendingOutbound (Some arr) c1)
               | Throw e => (Throw e, c1)
               end
          else (Normal (), c1)
      | (Throw e, c1) => (Throw e, c1)
      end
  end.

Definition setState (state : option Obj) (c : ExecutionContext)
    : ExecutionContext :=
  set_savedState state c.

(** *** Input and output *)

(** The body of [inputParameters.forEach]: one parameter written into the
    object under construction. *)
Definition input_step (c : ExecutionContext) (acc : M Obj)
    (parm : ParameterDescriptor) : M Obj :=
  o ← acc;
  scope ← getVariablesAndServices (environment c) None;
  mret (obj_set o (parm_name parm) (getInputValue parm (message c) scope)).

Definition getInput (c : ExecutionContext) : M (Obj * ExecutionContext) :=
  match inputResult c with
  | Some o => mret (o, c)
  | None =>
      match inputParameters c with
      | None =>
          scope ← getVariablesAndServices (environment c) None;
          mret (scope, c)
      | Some parms =>
          o ← fold_left (input_step c) parms new_object;
          mret (o, set_inputResult (Some o) c)
      end
  end.

Definition getIteration (loopMessage : value) (c : ExecutionContext)
    : M ExecutionContext :=
  let iterationEnvironment := clone (environment c) loopMessage in
  execution (activity c) loopMessage iterationEnvironment (inboundFlow c)
    (rootFlow c).

Definition setResult (data : value) (c : ExecutionContext)
    : ExecutionContext :=
  set_resultData data c.

(** The body of [outputParameters.forEach] in [getOutput]. *)
Definition output_step (c : ExecutionContext) (scope : Obj) (result : Obj)
    (parm : ParameterDescriptor) : Obj :=
  obj_set result (parm_name parm) (getOutputValue parm (resultData c) scope).

Definition getOutput (c : ExecutionContext) : M (value * ExecutionContext) :=
  match outputParameters c with
  | None => mret (resultData c, c)
  | Some parms =>
      result ← new_object;
      target ← new_object;
      variablesAndServices ← getVariablesAndServices (environment c) None;
      '(input, c1) ← getInput c;
      let variablesAndServicesWithInput :=
        assign (assign target (Some variablesAndServices)) (Some input) in
      mret (obj_value
              (fold_left (output_step c1 variablesAndServicesWithInput)
                 parms result),
            c1)
  end.

Definition getContextInput (c : ExecutionContext)
    : M (Obj * ExecutionContext) :=
  '(input, c1) ← getInput c;
  scope ← getVariablesAndServices (environment c1) (Some input);
  mret (scope, c1).

Definition getContextOutput (c : ExecutionContext)
    : M (Obj * ExecutionContext) :=
  '(result, c1) ← getContextInput c;
  match outputParameters c1 with
  | Some parms =>
      mret (fold_left
              (λ result parm,
                 obj_set result (parm_name parm)
                   (getOutputValue parm (resultData c1) result))
              parms result,
            c1)
  | None => mret (result, c1)
  end.

(** *** Form and postponement *)

Definition getForm (formData : value) (c : ExecutionContext)
    : M (value * ExecutionContext) :=
  formInstance ← Form_new Form formData;
  '(input, c1) ← getInput c;
  bound ← Form_init Form formInstance input (environment c1);
  mret (bound, c1).

Definition postpone (executeCallback : Callback) (c : ExecutionContext)
    : M ExecutionContext :=
  c1 ← match act_form (activity c) with
       | Some formData =>
           '(f, c') ← getForm formData c; mret (set_form (Some f) c')
       | None => mret c
       end;
  mret (set_handles
          (λ args, executeCallback [arg 0 args])
          (λ args, executeCallback [VNull; arg 0 args])
          (λ args, executeCallback (VNull :: args))
          c1).

(** *** Pending flows *)

(** Arrays are their contents here: [return inbound] hands out the
    activity's own array, the other paths a new one. *)
Definition getPendingInbound (c : ExecutionContext)
    : FlowArray * ExecutionContext :=
  match pendingInbound c with
  | Some cached => (cached, c)
  | None =>
      match inbound c with
      | None | Some [] => ([], c)
      | Some flows =>
          match inboundFlow c with
          | None => (slice flows, c)
          | Some trigger =>
              let result := slice flows in
              let inboundIndex := indexOf trigger flows in
              let result :=
                if -1 <? inboundIndex then splice1 inboundIndex result
                else result in
              (result, set_pendingInbound (Some result) c)
          end
      end
  end.

Definition getPendingOutbound (c : ExecutionContext)
    : FlowArray * ExecutionContext :=
  match pendingOutbound c with
  | Some cached => (cached, c)
  | None =>
      let pending := slice (outbound c) in
      let pending :=
        if bool_decide (1 < length pending)%nat then
          match find flow_isDefault (outbound c) with
          | Some defaultFlow =>
              push (splice1 (indexOf (Some defaultFlow) pending) pending)
                   (Some defaultFlow)
          | None => pending
          end
        else pending in
      (pending, set_pendingOutbound (Some pending) c)
  end.

(** *** State snapshot *)

(** [pending.map((f) => f.id)]: reading [id] off [undefined] throws. *)
Definition flow_ids (pending : FlowArray) : Completion (list value) :=
  match mapM (λ f : option SequenceFlow, flow_id <$> f) pending with
  | Some ids => Normal (VStr <$> ids)
  | None => Throw TypeError
  end.

(** [activity.getState ? activity.getState() : {}] *)
Definition own_state (a : Activity) : M Obj :=
  match act_getState a with
  | Some hook => hook
  | None => new_object
  end.

Definition getState (override : option Obj) (c : ExecutionContext)
    : M (Completion Obj * ExecutionContext) :=
  state ← own_state (activity c);
  '(state, c1) ← match act_form (activity c) with
                 | Some formData =>
                     '(f, c') ← getForm formData c;
                     mret (obj_set state "form" f, c')
                 | None => mret (state, c)
                 end;
  if pendingFork c1 then
    let '(pending, c2) := getPendingOutbound c1 in
    match flow_ids pending with
    | Normal ids =>
        let state := obj_set state "pendingOutbound" (VArr ids) in
        mret (Normal (assign (assign state override) (savedState c2)), c2)
    | Throw e => mret (Throw e, c2)
    end
  else
    mret (Normal (assign (assign state override) (savedState c1)), c1).

(** *** Stop flag *)

Definition stop (c : ExecutionContext) : ExecutionContext :=
  set_stopped true c.

Definition isStopped (c : ExecutionContext) : bool := stopped c.

(** *** Well-formed pending lists *)

(** The pending-outbound list, once set, holds outbound edges of the activity
    and nothing else. *)
Definition pending_live (c : ExecutionContext) : Prop :=
  ∀ cached, pendingOutbound c = Some cached → cached ⊆ slice (outbound c).
End Execution.

Arguments ExecutionContext Env : clear implicits.
Arguments mkContext {Env} _ _ _ _ _ _ _ _ _ _ _ _ _ _ _ _.

(** ** Sample collaborators and graphs *)

(** An environment that keeps its variables in a map and builds the scope
    object anew at every call of [getVariablesAndServices], the extra
    properties on top. *)
Record ScopeEnvironment := mkScopeEnvironment {
  variables : gmap string value
}.

#[global] Instance ScopeEnvironment_ops : Environment ScopeEnvironment := {
  getVariablesAndServices e extra := λ w,
    (mkObj (next_ref w)
       (match extra with Some x => obj_props x | None => ∅ end ∪ variables e),
     mkWorld (S (next_ref w)) (random w) (random_calls w) (trace w));
  clone e loopMessage :=
    mkScopeEnvironment (<["message" := loopMessage]> (variables e))
}.

(** A form module whose instances are plain records of what they were given. *)
Definition record_form : FormModule ScopeEnvironment := {|
  Form_new formData := λ w,
    (VObj (next_ref w) {["formData" := formData]},
     mkWorld (S (next_ref w)) (random w) (random_calls w) (trace w));
  Form_init formInstance input env := λ w,
    (match formInstance with
     | VObj r m => VObj r (<["input" := obj_value input]> m)
     | other => other
     end, w)
|}.

Definition world0 : World := mkWorld 0 (λ _, 0%Q) 0 [].

(** [Math.random()] returns 0.25 and then 0.25 + 2^-30, two doubles. *)
Definition world_close_draws : World :=
  mkWorld 0
    (λ n, match n with
          | O => (1 # 4)%Q
          | _ => (268435457 # 1073741824)%Q
          end) 0 [].

(** [Math.random()] returns the double written 0.6066740209039645, whose
    exact product with 988999 lies just below 600000. *)
Definition world_rounding_draw : World :=
  mkWorld 0 (λ _, (2732216894478455 # 4503599627370496)%Q) 0 [].

Definition env0 : ScopeEnvironment :=
  mkScopeEnvironment {["answer" := VNum 42]}.

Definition flowA : SequenceFlow := mkFlow 1 "A" false.
Definition flowB : SequenceFlow := mkFlow 2 "B" true.
Definition flowC : SequenceFlow := mkFlow 3 "C" false.

(** Another edge object that carries the identifier of [flowA]. *)
Definition flowA_twin : SequenceFlow := mkFlow 9 "A" false.

(** A gateway with inbound [A; C] and outbound [A; B; C], [B] the default. *)
Definition gateway : Activity :=
  mkActivity "decision" "exclusiveGateway" None None
    (Some [flowA; flowC]) [flowA; flowB; flowC] None.

(** The same gateway with a [getState()] hook that reports [{x: 0, z: 5}]
    in a new object. *)
Definition stateful_gateway : Activity :=
  mkActivity "decision" "exclusiveGateway" None None
    (Some [flowA; flowC]) [flowA; flowB; flowC]
    (Some (λ w, (mkObj (next_ref w) (<["x" := VNum 0]> {["z" := VNum 5]}),
                 mkWorld (S (next_ref w)) (random w) (random_calls w)
                   (trace w)))).

(** An output parameter [result] that maps the raw result's key [r]. *)
Definition result_from_r : ParameterDescriptor :=
  mkParameterDescriptor "result" (λ _ _, VUndefined) (λ raw _, get_prop raw "r").

(** An input parameter [who] that maps the scope's variable [answer]. *)
Definition who_from_answer : ParameterDescriptor :=
  mkParameterDescriptor "who"
    (λ _ scope, default VUndefined (obj_props scope !! "answer")) (λ _ _, VUndefined).

Definition task_with_io : Activity :=
  mkActivity "task" "serviceTask" None
    (Some (mkIO (Some [who_from_answer]) (Some [result_from_r])))
    (Some [flowA]) [flowB] None.

Definition plain_task : Activity :=
  mkActivity "task" "userTask" None None (Some [flowA]) [flowB] None.

Definition loop_message : value := VObj 100 {["loop" := VBool true]}.
Definition sequential_loop_message : value :=
  VObj 101 (<["isSequential" := VBool true]> {["loop" := VBool true]}).

(** ** Delegation to the activity and to the expression resolver *)

(** The hooks [cancel] and [discard] of an activity, which an activity may
    lack, and the module [../expressions], whose second argument is the
    scope it evaluates in: a value handed in by the caller or the
    environment. *)
Record Delegates (Env : Type) := mkDelegates {
  activity_cancel : Activity → option (World → World);
  activity_discard :
    Activity → option (option SequenceFlow → value → World → World);
  expressions : string → value + Env → value
}.
Arguments activity_cancel {Env} _ _.
Arguments activity_discard {Env} _ _.
Arguments expressions {Env} _ _ _.

Section Delegation.
Context {Env : Type} (delegates : Delegates Env).

(** [activity.cancel()]: calling a hook the activity does not have throws
    before anything is done. *)
Definition cancel (c : ExecutionContext Env) : M (Completion unit) :=
  match activity_cancel delegates (activity c) with
  | Some hook => λ w, (Normal (), hook w)
  | None => λ w, (Throw TypeError, w)
  end.

(** [activity.discard(inboundFlow, rootFlow)] *)
Definition discard (c : ExecutionContext Env) : M (Completion unit) :=
  match activity_discard delegates (activity c) with
  | Some hook => λ w, (Normal (), hook (inboundFlow c) (rootFlow c) w)
  | None => λ w, (Throw TypeError, w)
  end.

(** [expressions(expression, from || environment)] *)
Definition resolveExpression (expression : string) (from : value)
    (c : ExecutionContext Env) : value :=
  expressions delegates expression
    (if truthy from then inl from else inr (environment c)).
End Delegation.

(** Two contexts that agree on everything but the three memoized variables
    [pendingInbound], [pendingOutbound] and [inputResult]. *)
Definition same_outside_memo {Env} (c c' : ExecutionContext Env) : Prop :=
  id c' = id c ∧ activity c' = activity c ∧ message c' = message c
  ∧ environment c' = environment c ∧ inboundFlow c' = inboundFlow c
  ∧ rootFlow c' = rootFlow c ∧ stopped c' = stopped c
  ∧ savedState c' = savedState c ∧ resultData c' = resultData c
  ∧ form c' = form c ∧ error c' = error c ∧ signal c' = signal c
  ∧ complete c' = complete c.

(** Delegates that record what they are called with; the activities of
    type [userTask] have neither hook. *)
Definition recording_delegates : Delegates ScopeEnvironment := {|
  activity_cancel a :=
    if String.eqb (act_type a) "userTask" then None
    else Some (recorder "cancel" [VStr (act_id a)]);
  activity_discard a :=
    if String.eqb (act_type a) "userTask" then None
    else Some (λ inboundFlow rootFlow,
                 recorder "discard"
                   [match inboundFlow with
                    | Some f => VStr (flow_id f)
                    | None => VUndefined
                    end; rootFlow]);
  expressions expression scope :=
    match scope with
    | inl from => get_prop from expression
    | inr env => default VUndefined (variables env !! expression)
    end
|}.

(** Two output parameters that write the same name. *)
Definition result_from_s : ParameterDescriptor :=
  mkParameterDescriptor "result" (λ _ _, VUndefined) (λ raw _, get_prop raw "s").

Definition task_with_two_outputs : Activity :=
  mkActivity "task" "serviceTask" None
    (Some (mkIO (Some [who_from_answer]) (Some [result_from_r; result_from_s])))
    (Some [flowA; flowC]) [flowB] None.

(** A task with the same edge object twice among its inbound edges. *)
Definition join_with_repeated_edge : Activity :=
  mkActivity "join" "parallelGateway" None None
    (Some [flowA; flowC; flowA]) [flowB] None.

(** ** Arrays *)

Section ArrayFacts.
Context {A : Type} `{EqDecision A}.
Implicit Types (x : A) (arr pre post : list A).

Lemma indexOf_lower_bound x arr : -1 ≤ indexOf x arr.
Proof.
  induction arr as [|y rest IH]; simpl; [lia|].
  destruct (decide (y = x)); [lia|].
  destruct (indexOf x rest <? 0) eqn:E; lia.
Qed.

Lemma indexOf_absent x arr : x ∉ arr → indexOf x arr = -1.
Proof.
  induction arr as [|y rest IH]; simpl; intros Hx; [done|].
  apply not_elem_of_cons in Hx as [Hne Hrest].
  destruct (decide (y = x)); [congruence|].
  rewrite (IH Hrest). done.
Qed.

Lemma indexOf_first x pre post :
  x ∉ pre → indexOf x (pre ++ x :: post) = Z.of_nat (length pre).
Proof.
  induction pre as [|y pre IH]; simpl; intros Hx.
  - by rewrite decide_True.
  - apply not_elem_of_cons in Hx as [Hne Hpre].
    rewrite decide_False by congruence.
    rewrite (IH Hpre).
    destruct (Z.of_nat (length pre) <? 0) eqn:E; lia.
Qed.

Lemma splice1_at pre x post :
  splice1 (Z.of_nat (length pre)) (pre ++ x :: post) = pre ++ post.
Proof.
  unfold splice1.
  assert ((Z.of_nat (length pre) <? 0) = false) as -> by (apply Z.ltb_ge; lia).
  rewrite length_app; simpl.
  rewrite Z.min_l by lia.
  rewrite Nat2Z.id.
  rewrite take_app_length.
  replace (S (length pre)) with (length pre + 1)%nat by lia.
  rewrite drop_app_add. done.
Qed.

Lemma first_occurrence x arr :
  x ∈ arr → ∃ pre post, arr = pre ++ x :: post ∧ x ∉ pre.
Proof.
  induction arr as [|y rest IH]; intros Hx; [by apply elem_of_nil in Hx|].
  destruct (decide (y = x)) as [->|Hne].
  - exists [], rest. split; [done|]. apply not_elem_of_nil.
  - apply elem_of_cons in Hx as [->|Hx]; [done|].
    destruct (IH Hx) as (pre & post & -> & Hpre).
    exists (y :: pre), post. split; [done|].
    apply not_elem_of_cons. split; [congruence|done].
Qed.
End ArrayFacts.

Lemma slice_app (xs ys : list SequenceFlow) :
  slice (xs ++ ys) = slice xs ++ slice ys.
Proof. apply map_app. Qed.

Lemma length_slice (xs : list SequenceFlow) : length (slice xs) = length xs.
Proof. apply length_map. Qed.

Lemma slice_not_elem (f : SequenceFlow) (xs : list SequenceFlow) :
  f ∉ xs → Some f ∉ slice xs.
Proof.
  intros Hf Hin. apply list_elem_of_fmap in Hin as (g & Heq & Hg).
  by simplify_eq.
Qed.


Lemma find_split {A} (P : A → bool) (xs : list A) (d : A) :
  find P xs = Some d →
  ∃ pre post, xs = pre ++ d :: post
    ∧ Forall (λ f, P f = false) pre ∧ P d = true.
Proof.
  induction xs as [|y rest IH]; simpl; [done|].
  destruct (P y) eqn:Hy; intros Hfind.
  - injection Hfind as ->. exists [], rest. by repeat split.
  - destruct (IH Hfind) as (pre & post & -> & Hpre & Hd).
    exists (y :: pre), post. repeat split; [|done]. by constructor.
Qed.


(** ** Properties of the execution context *)

Section Properties.
Context {Env : Type} `{Environment Env} (Form : FormModule Env).
Implicit Types (c : ExecutionContext Env) (w : World) (a : Activity).
Implicit Types (env : Env) (msg root : value) (inb : option SequenceFlow).

(** A context comes out of [execution] with every closure variable unset. *)
Lemma execution_fresh a msg env inb root w :
  ∃ name,
    (execution a msg env inb root w).1 =
    mkContext name a msg env inb root false None None None VUndefined
      None None None None None.
Proof.
  unfold execution; run_world.
  destruct (parallel_loop msg); simpl.
  - destruct (generateId w) as [suffix w']. simpl. eauto.
  - eauto.
Qed.

(** *** Pending outbound edges *)

Lemma default_last_computed (flows pre post : list SequenceFlow) d :
  flows = pre ++ d :: post →
  Forall (λ f, flow_isDefault f = false) pre →
  flow_isDefault d = true →
  push (splice1 (indexOf (Some d) (slice flows)) (slice flows)) (Some d)
  = slice (pre ++ post ++ [d]).
Proof.
  intros -> Hpre Hd.
  assert (d ∉ pre) as Hnot.
  { intros Hin. rewrite Forall_forall in Hpre.
    specialize (Hpre d Hin). congruence. }
  rewrite slice_app. change (slice (d :: post)) with (Some d :: slice post).
  rewrite indexOf_first by by apply slice_not_elem.
  rewrite splice1_at. unfold push.
  rewrite !slice_app, <- app_assoc. done.
Qed.


(** *** Pending inbound edges *)

(** What [getPendingInbound] computes for a triggering edge when nothing is
    cached: the copy of the edge list, without the first position that
    holds the very same edge object. *)
Lemma getPendingInbound_computed c flows trigger :
  pendingInbound c = None →
  inbound c = Some flows →
  inboundFlow c = Some trigger →
  (getPendingInbound c).1 =
    if -1 <? indexOf trigger flows
    then splice1 (indexOf trigger flows) (slice flows)
    else slice flows.
Proof.
  intros Hunset Hflows Htrigger.
  unfold getPendingInbound. rewrite Hunset, Hflows, Htrigger.
  destruct flows as [|y rest]; [reflexivity|].
  by destruct (-1 <? indexOf trigger (y :: rest)).
Qed.

Lemma filter_keeps_all (flows : list SequenceFlow) trigger :
  trigger ∉ flows → filter (λ f, f ≠ trigger) flows = flows.
Proof.
  induction flows as [|y rest IH]; intros Hnot; [done|].
  apply not_elem_of_cons in Hnot as [Hne Hrest].
  rewrite filter_cons_True by congruence. by rewrite IH.
Qed.

Lemma filter_other_edges (flows pre post : list SequenceFlow) trigger :
  flows = pre ++ trigger :: post → NoDup flows →
  filter (λ f, f ≠ trigger) flows = pre ++ post.
Proof.
  intros -> Hnodup.
  apply NoDup_app in Hnodup as (_ & Hpre & Hpost).
  apply NoDup_cons in Hpost as [Hpost _].
  rewrite filter_app, filter_cons_False by (intros Hne; by apply Hne).
  f_equal; apply filter_keeps_all; [|done].
  intros Hin. by apply (Hpre trigger Hin), elem_of_cons; left.
Qed.

(** C2. A context constructed with a triggering inbound edge that is among
    the activity's inbound edges reports as pending the inbound edges
    without that edge (the position of the trigger is removed, the other
    edges keep their order); a context constructed without a triggering
    edge reports all inbound edges. *)
Theorem getPendingInbound_excludes_trigger a msg env root w :
  (∀ flows trigger,
      act_inbound a = Some flows → trigger ∈ flows →
      let c := (execution a msg env (Some trigger) root w).1 in
      (∃ pre post, flows = pre ++ trigger :: post ∧ (trigger ∉ pre)
         ∧ (getPendingInbound c).1 = slice (pre ++ post))
      ∧ (NoDup flows →
         (getPendingInbound c).1 = slice (filter (λ f, f ≠ trigger) flows)))
  ∧ (getPendingInbound (execution a msg env None root w).1).1
    = slice (default [] (act_inbound a)).
Proof.
  split.
  - intros flows trigger Hflows Hin c. subst c.
    destruct (execution_fresh a msg env (Some trigger) root w) as [name ->].
    destruct (first_occurrence _ _ Hin) as (pre & post & Hsplit & Hpre).
    assert ((getPendingInbound
               (mkContext name a msg env (Some trigger) root false None None
                  None VUndefined None None None None None)).1
            = slice (pre ++ post)) as Hresult.
    { rewrite (getPendingInbound_computed _ flows trigger) by done.
      rewrite Hsplit, (indexOf_first _ _ _ Hpre).
      assert ((-1 <? Z.of_nat (length pre)) = true) as ->
        by (apply Z.ltb_lt; lia).
      rewrite slice_app. change (slice (trigger :: post))
        with (Some trigger :: slice post).
      rewrite <- (length_slice pre), splice1_at. by rewrite slice_app. }
    split; [by exists pre, post|].
    intros Hnodup. by rewrite Hresult, (filter_other_edges _ _ _ _ Hsplit).
  - destruct (execution_fresh a msg env None root w) as [name ->].
    unfold getPendingInbound, inbound; simpl.
    by destruct (act_inbound a) as [[|y rest]|].
Qed.

(** C10. The triggering edge is sought among the inbound edges as an
    object: a context constructed with an edge object that is none of the
    activity's inbound edge objects, whatever its identifier, reports a copy
    of all inbound edges, which it keeps as its pending list. *)
Theorem getPendingInbound_by_identity a msg env root w flows trigger :
  act_inbound a = Some flows →
  trigger ∉ flows →
  let c := (execution a msg env (Some trigger) root w).1 in
  (getPendingInbound c).1 = slice flows
  ∧ (flows ≠ [] → pendingInbound (getPendingInbound c).2 = Some (slice flows)).
Proof.
  intros Hflows Hnot c. subst c.
  destruct (execution_fresh a msg env (Some trigger) root w) as [name ->].
  unfold getPendingInbound, inbound; simpl. rewrite Hflows.
  destruct flows as [|y rest]; [done|].
  rewrite (indexOf_absent _ _ Hnot). simpl. done.
Qed.

(** *** Identity *)

Lemma toString16_inj n m : toString16 n = toString16 m → n = m.
Proof.
  unfold toString16. intros Heq.
  apply HexadecimalZ.to_int_inj.
  assert (∀ z, Z.to_hex_int z ≠ Pos Nil ∧ Z.to_hex_int z ≠ Neg Nil) as Hnonnil.
  { intros [|p|p]; simpl; split; try discriminate;
      intros [=Hp]; by apply HexadecimalPos.Unsigned.to_uint_nonnil in Hp. }
  apply (f_equal NilZero.int_of_string) in Heq.
  rewrite !NilZero.isi in Heq by apply Hnonnil.
  by injection Heq.
Qed.

Lemma generateId_next w : (generateId w).1 = toString16 (next_rand w).
Proof. reflexivity. Qed.

Lemma suffixed_differs (base suffix : string) :
  base +:+ "_" +:+ suffix ≠ base.
Proof.
  induction base as [|ch base IH]; simpl; [discriminate|].
  intros [=Heq]. by apply IH.
Qed.

Lemma execution_id a msg env inb root w :
  id (execution a msg env inb root w).1 =
    if parallel_loop msg
    then act_id a +:+ "_" +:+ toString16 (next_rand w)
    else act_id a.
Proof.
  unfold execution; run_world.
  destruct (parallel_loop msg); [|done].
  rewrite <- generateId_next.
  by destruct (generateId w).
Qed.

(** C3, as the code has it. The identifier of a constructed context is the
    activity's identifier unless the message is truthy, has a truthy [loop]
    and no truthy [isSequential]; in that case it is the activity's
    identifier, an underscore and the hexadecimal digits of the integer
    [next_rand]: the floor of the double product of [Math.random()] and
    988999, plus 11000.  An iteration made with such a message has
    an identifier that differs from the activity's, and two iterations have
    different identifiers exactly when the integers drawn for them differ;
    an iteration made with any other message has the activity's
    identifier. *)
Theorem execution_identity a msg env inb root w :
  id (execution a msg env inb root w).1 =
    (if parallel_loop msg
     then act_id a +:+ "_" +:+ toString16 (next_rand w)
     else act_id a)
  ∧ ∀ c loopMessage w1 w2,
      let first := (getIteration loopMessage c w1).1 in
      let second := (getIteration loopMessage c w2).1 in
      if parallel_loop loopMessage
      then id first = act_id (activity c) +:+ "_" +:+ toString16 (next_rand w1)
           ∧ id first ≠ act_id (activity c)
           ∧ (id first = id second ↔ next_rand w1 = next_rand w2)
      else id first = act_id (activity c).
Proof.
  split; [apply execution_id|].
  intros c loopMessage w1 w2 first second. subst first second.
  unfold getIteration. rewrite !execution_id.
  destruct (parallel_loop loopMessage); [|done].
  split; [done|]. split; [apply suffixed_differs|].
  split.
  - intros Heq. apply String.app_inj in Heq. apply String.app_inj in Heq.
    by apply toString16_inj.
  - by intros ->.
Qed.

(** *** Input resolution *)

(** The loop of [getInput]: the object under construction keeps its
    identity, gains the declared names, and every entry written is a
    parameter's value for the message and a scope of the environment. *)
Lemma input_loop c parms (acc : M Obj) w :
  let start := (acc w).1 in
  let final := (fold_left (input_step c) parms acc w).1 in
  obj_ref final = obj_ref start
  ∧ dom (obj_props final)
    = (list_to_set (parm_name <$> parms) : gset string) ∪ dom (obj_props start)
  ∧ ∀ k v, obj_props final !! k = Some v →
      obj_props start !! k = Some v
      ∨ ∃ parm w0, parm ∈ parms ∧ parm_name parm = k
          ∧ v = getInputValue parm (message c)
                  (getVariablesAndServices (environment c) None w0).1.
Proof.
  revert acc. induction parms as [|parm parms IH]; intros acc; simpl.
  - split; [done|]. split; [set_solver|]. by left.
  - destruct (IH (input_step c acc parm)) as (Href & Hdom & Hentries).
    assert ((input_step c acc parm w).1
            = obj_set (acc w).1 (parm_name parm)
                (getInputValue parm (message c)
                   (getVariablesAndServices (environment c) None (acc w).2).1))
      as Hstep.
    { unfold input_step; run_world.
      destruct (acc w) as [o w1]; simpl.
      by destruct (getVariablesAndServices (environment c) None w1). }
    rewrite Hstep in Href, Hdom, Hentries.
    split; [done|]. split.
    + rewrite Hdom. simpl. rewrite dom_insert_L. set_solver.
    + intros k v Hkv. destruct (Hentries k v Hkv) as [Hold|Hnew].
      * simpl in Hold. destruct (decide (parm_name parm = k)) as [<-|Hne].
        -- rewrite lookup_insert_eq in Hold. injection Hold as <-.
           right. eexists parm, _. split; [by left|]. done.
        -- rewrite lookup_insert_ne in Hold by done. by left.
      * destruct Hnew as (p & w0 & Hp & Hname & Hv).
        right. exists p, w0. split; [by right|]. done.
Qed.

(** C4, as the code has it. Before any input is resolved: without declared
    input parameters [getInput()] returns what the environment's
    [getVariablesAndServices()] returns and keeps nothing; with declared
    input parameters it returns a newly created object whose keys are
    exactly the declared names, each value being a parameter's value for
    the message and a scope of the environment, and every later call
    returns that very object without touching context or world. *)
Theorem getInput_resolves_and_memoizes c w :
  inputResult c = None →
  match inputParameters c with
  | None =>
      getInput c w =
        (((getVariablesAndServices (environment c) None w).1, c),
         (getVariablesAndServices (environment c) None w).2)
  | Some parms =>
      let input := (getInput c w).1.1 in
      let c' := (getInput c w).1.2 in
      obj_ref input = next_ref w
      ∧ dom (obj_props input) = list_to_set (parm_name <$> parms)
      ∧ (∀ k v, obj_props input !! k = Some v →
           ∃ parm w0, parm ∈ parms ∧ parm_name parm = k
             ∧ v = getInputValue parm (message c)
                     (getVariablesAndServices (environment c) None w0).1)
      ∧ ∀ w', getInput c' w' = ((input, c'), w')
  end.
Proof.
  intros Hunset. unfold getInput. rewrite Hunset.
  destruct (inputParameters c) as [parms|] eqn:Hparms.
  - run_world.
    pose proof (input_loop c parms new_object w) as (Href & Hdom & Hentries).
    destruct (fold_left (input_step c) parms new_object w) as [o w1].
    simpl in *. split; [done|]. split; [|split].
    + rewrite Hdom. set_solver.
    + intros k v Hkv. destruct (Hentries k v Hkv) as [Hold|Hnew]; [|done].
      by rewrite lookup_empty in Hold.
    + done.
  - run_world.
    by destruct (getVariablesAndServices (environment c) None w).
Qed.

(** *** Output resolution *)

Lemma output_loop c scope parms (result : Obj) :
  let final := fold_left (output_step c scope) parms result in
  obj_ref final = obj_ref result
  ∧ dom (obj_props final)
    = (list_to_set (parm_name <$> parms) : gset string) ∪ dom (obj_props result)
  ∧ ∀ k v, obj_props final !! k = Some v →
      obj_props result !! k = Some v
      ∨ ∃ parm, parm ∈ parms ∧ parm_name parm = k
          ∧ v = getOutputValue parm (resultData c) scope.
Proof.
  revert result. induction parms as [|parm parms IH]; intros result; simpl.
  - split; [done|]. split; [set_solver|]. by left.
  - destruct (IH (output_step c scope result parm)) as (Href & Hdom & Hentries).
    split; [done|]. split.
    + rewrite Hdom. simpl. rewrite dom_insert_L. set_solver.
    + intros k v Hkv. destruct (Hentries k v Hkv) as [Hold|Hnew].
      * simpl in Hold. destruct (decide (parm_name parm = k)) as [<-|Hne].
        -- rewrite lookup_insert_eq in Hold. injection Hold as <-.
           right. exists parm. split; [by left|]. done.
        -- rewrite lookup_insert_ne in Hold by done. by left.
      * destruct Hnew as (p & Hp & Hname & Hv).
        right. exists p. split; [by right|]. done.
Qed.

Lemma getOutput_declared c parms w :
  outputParameters c = Some parms →
  let w2 := (new_object (new_object w).2).2 in
  let variablesAndServices := getVariablesAndServices (environment c) None w2 in
  let input := getInput c variablesAndServices.2 in
  (getOutput c w).1.1 =
    obj_value
      (fold_left
         (output_step input.1.2
            (mkObj (S (next_ref w))
               (obj_props input.1.1 ∪ (obj_props variablesAndServices.1 ∪ ∅))))
         parms (mkObj (next_ref w) ∅)).
Proof.
  intros Hparms. unfold getOutput. rewrite Hparms.
  run_world. simpl.
  destruct (getVariablesAndServices _ _ _) as [vs w3]; simpl.
  by destruct (getInput c w3) as [[input c1] w4].
Qed.

Lemma getInput_keeps_resultData c w :
  resultData (getInput c w).1.2 = resultData c.
Proof.
  unfold getInput; run_world.
  destruct (inputResult c); [done|].
  destruct (inputParameters c) as [parms|].
  - by destruct (fold_left (input_step c) parms new_object w).
  - by destruct (getVariablesAndServices (environment c) None w).
Qed.

(** C5. After [setResult(data)]: without declared output parameters
    [getOutput()] returns [data] itself and changes nothing; with declared
    output parameters it returns an object whose keys are exactly the
    declared names, each value being a parameter's value for [data] and the
    scope that holds the environment's variables and services overlaid
    with the resolved input.  With the single output parameter [result]
    that maps the raw key [r], the raw result [{r: 10}] gives
    [{result: 10}]. *)
Theorem getOutput_resolves c data w :
  let c' := setResult data c in
  match outputParameters c with
  | None => getOutput c' w = ((data, c'), w)
  | Some parms =>
      let w2 := (new_object (new_object w).2).2 in
      let variablesAndServices :=
        getVariablesAndServices (environment c) None w2 in
      let input := (getInput c' variablesAndServices.2).1.1 in
      ∃ ref props scope,
        (getOutput c' w).1.1 = VObj ref props
        ∧ dom props = list_to_set (parm_name <$> parms)
        ∧ obj_props scope
          = obj_props input ∪ obj_props variablesAndServices.1
        ∧ (∀ k v, props !! k = Some v →
             ∃ parm, parm ∈ parms ∧ parm_name parm = k
               ∧ v = getOutputValue parm data scope)
        ∧ (parms = [result_from_r] →
           ∀ r, data = VObj r {["r" := VNum 10]} →
                props = {["result" := VNum 10]})
  end.
Proof.
  intros c'.
  assert (outputParameters c' = outputParameters c) as Hsame by done.
  destruct (outputParameters c) as [parms|] eqn:Hparms.
  - intros w2 variablesAndServices input.
    pose proof (getOutput_declared c' parms w Hsame) as Hout.
    simpl in Hout. fold w2 in Hout.
    change (environment c') with (environment c) in Hout.
    fold variablesAndServices in Hout.
    set (scope := mkObj (S (next_ref w))
                    (obj_props input ∪ (obj_props variablesAndServices.1 ∪ ∅))).
    set (c1 := (getInput c' variablesAndServices.2).1.2) in *.
    fold input scope in Hout.
    pose proof (output_loop c1 scope parms (mkObj (next_ref w) ∅))
      as (Href & Hdom & Hentries).
    assert (resultData c1 = data) as Hdata
      by (subst c1; by rewrite getInput_keeps_resultData).
    rewrite Hdata in Hentries.
    set (final := fold_left (output_step c1 scope) parms
                    (mkObj (next_ref w) ∅)) in *.
    exists (obj_ref final), (obj_props final), scope.
    split; [exact Hout|].
    split; [rewrite Hdom; set_solver|].
    split; [subst scope; simpl; by rewrite (right_id_L ∅ (∪))|].
    split.
    + intros k v Hkv. destruct (Hentries k v Hkv) as [Hold|Hnew]; [|done].
      simpl in Hold. by rewrite lookup_empty in Hold.
    + intros -> r ->. subst final. simpl. unfold output_step. simpl.
      rewrite Hdata. simpl. by rewrite lookup_singleton_eq.
  - unfold getOutput. by rewrite Hsame.
Qed.

(** *** Postponement *)

Lemma getInput_keeps_closure c w :
  let c' := (getInput c w).1.2 in
  id c' = id c ∧ activity c' = activity c ∧ message c' = message c
  ∧ environment c' = environment c ∧ inboundFlow c' = inboundFlow c
  ∧ rootFlow c' = rootFlow c ∧ stopped c' = stopped c
  ∧ pendingInbound c' = pendingInbound c
  ∧ pendingOutbound c' = pendingOutbound c
  ∧ savedState c' = savedState c ∧ resultData c' = resultData c.
Proof.
  unfold getInput; run_world.
  destruct (inputResult c); [done|].
  destruct (inputParameters c) as [parms|].
  - by destruct (fold_left (input_step c) parms new_object w).
  - by destruct (getVariablesAndServices (environment c) None w).
Qed.

Lemma getForm_keeps_closure formData c w :
  let c' := (getForm Form formData c w).1.2 in
  id c' = id c ∧ activity c' = activity c ∧ message c' = message c
  ∧ environment c' = environment c ∧ inboundFlow c' = inboundFlow c
  ∧ rootFlow c' = rootFlow c ∧ stopped c' = stopped c
  ∧ pendingInbound c' = pendingInbound c
  ∧ pendingOutbound c' = pendingOutbound c
  ∧ savedState c' = savedState c ∧ resultData c' = resultData c.
Proof.
  unfold getForm; run_world.
  destruct (Form_new Form formData w) as [formInstance w1].
  pose proof (getInput_keeps_closure c w1) as Hkeep.
  destruct (getInput c w1) as [[input c1] w2].
  by destruct (Form_init Form formInstance input (environment c1) w2).
Qed.

(** C6. [postpone(cb)] returns the context it was called on, now carrying
    the handles [error], [signal] and [complete]; what identifies the
    context and what it has recorded so far is untouched.  One call of a
    handle is one call of [cb]: [error(err)] passes [err], [signal(input)]
    passes [null] and [input], [complete(...values)] passes [null] followed
    by all the values in their order.  With a recording callback, after
    [postpone(cb)] the call [signal({value: 42})] adds exactly the one
    record of [cb(null, {value: 42})]. *)
Theorem postpone_installs_handles (cb : Callback) c w :
  let c' := (postpone Form cb c w).1 in
  (id c' = id c ∧ activity c' = activity c ∧ message c' = message c
   ∧ environment c' = environment c ∧ inboundFlow c' = inboundFlow c
   ∧ rootFlow c' = rootFlow c ∧ stopped c' = stopped c
   ∧ pendingInbound c' = pendingInbound c
   ∧ pendingOutbound c' = pendingOutbound c
   ∧ savedState c' = savedState c ∧ resultData c' = resultData c)
  ∧ ∃ on_error on_signal on_complete,
      error c' = Some on_error ∧ signal c' = Some on_signal
      ∧ complete c' = Some on_complete
      ∧ (∀ err rest w', on_error (err :: rest) w' = cb [err] w')
      ∧ (∀ input rest w', on_signal (input :: rest) w' = cb [VNull; input] w')
      ∧ (∀ values w', on_complete values w' = cb (VNull :: values) w')
      ∧ ∀ name,
          cb = recorder name →
          ∀ err input values w',
            trace (on_error [err] w') = trace w' ++ [Called name [err]]
            ∧ trace (on_signal [input] w')
              = trace w' ++ [Called name [VNull; input]]
            ∧ trace (on_complete values w')
              = trace w' ++ [Called name (VNull :: values)].
Proof.
  intros c'. subst c'.
  unfold postpone; run_world.
  destruct (act_form (activity c)) as [formData|].
  - pose proof (getForm_keeps_closure formData c w) as Hkeep.
    destruct (getForm Form formData c w) as [[f c1] w1]. simpl in *.
    split; [done|].
    eexists _, _, _. repeat (split; [reflexivity|]).
    by intros name ->.
  - simpl. split; [done|].
    eexists _, _, _. repeat (split; [reflexivity|]).
    by intros name ->.
Qed.

(** *** State snapshot *)

Lemma splice1_subseteq {A} (start : Z) (arr : list A) x :
  x ∈ splice1 start arr → x ∈ arr.
Proof.
  unfold splice1. intros Hin. apply elem_of_app in Hin as [Hin|Hin].
  - by apply (subseteq_take _ _ _ Hin).
  - by apply (subseteq_drop _ _ _ Hin).
Qed.

Lemma slice_defined (flows : list SequenceFlow) : None ∉ slice flows.
Proof.
  intros Hin. by apply list_elem_of_fmap in Hin as (f & Heq & _).
Qed.

(** A pending list without [undefined] is the copy of a list of edges. *)
Lemma defined_is_slice (pending : FlowArray) :
  None ∉ pending → ∃ flows, pending = slice flows.
Proof.
  induction pending as [|[f|] rest IH]; intros Hnot.
  - by exists [].
  - apply not_elem_of_cons in Hnot as [_ Hrest].
    destruct (IH Hrest) as [flows ->]. by exists (f :: flows).
  - exfalso. apply Hnot. by left.
Qed.

Lemma getPendingOutbound_defined c :
  (∀ cached, pendingOutbound c = Some cached → None ∉ cached) →
  None ∉ (getPendingOutbound c).1.
Proof.
  intros Hcached. unfold getPendingOutbound.
  destruct (pendingOutbound c) as [cached|]; [by apply Hcached|]. simpl.
  destruct (bool_decide _); [|apply slice_defined].
  destruct (find flow_isDefault (outbound c)) as [d|]; [|apply slice_defined].
  unfold push. intros Hin. apply elem_of_app in Hin as [Hin|Hin].
  - apply splice1_subseteq in Hin. by apply slice_defined in Hin.
  - by apply list_elem_of_singleton in Hin.
Qed.

Lemma getPendingOutbound_depends c1 c2 :
  activity c1 = activity c2 → pendingOutbound c1 = pendingOutbound c2 →
  (getPendingOutbound c1).1 = (getPendingOutbound c2).1.
Proof.
  intros Hact Hpend. unfold getPendingOutbound, outbound.
  rewrite Hact, Hpend. by destruct (pendingOutbound c2).
Qed.

Lemma getPendingOutbound_keeps_savedState c :
  savedState (getPendingOutbound c).2 = savedState c.
Proof. unfold getPendingOutbound. by destruct (pendingOutbound c). Qed.

Lemma flow_ids_slice (flows : list SequenceFlow) :
  flow_ids (slice flows) = Normal (VStr <$> (flow_id <$> flows)).
Proof.
  unfold flow_ids, slice.
  assert (mapM (λ f : option SequenceFlow, flow_id <$> f) (map Some flows)
          = Some (flow_id <$> flows)) as ->; [|done].
  induction flows as [|f flows IH]; [done|].
  simpl. by rewrite IH.
Qed.

(** The snapshot [getState] builds once the pending-outbound list is known
    to hold edges only. *)
Lemma getState_normal override c w :
  (∀ cached, pendingOutbound c = Some cached → None ∉ cached) →
  let own := own_state (activity c) w in
  let form_part : gmap string value :=
    match act_form (activity c) with
    | Some formData => {["form" := (getForm Form formData c own.2).1.1]}
    | None => ∅
    end in
  ∃ flows,
    (getPendingOutbound c).1 = slice flows
    ∧ ∃ state,
        (getState Form override c w).1.1 = Normal state
        ∧ obj_ref state = obj_ref own.1
        ∧ obj_props state
          = props_of (savedState c)
            ∪ (props_of override
               ∪ ((if pendingFork c
                   then {["pendingOutbound" :=
                            VArr (VStr <$> (flow_id <$> flows))]}
                   else ∅)
                  ∪ (form_part ∪ obj_props own.1))).
Proof.
  intros Hcached own form_part.
  destruct (defined_is_slice _ (getPendingOutbound_defined c Hcached))
    as [flows Hflows].
  exists flows. split; [done|].
  unfold getState; run_world. subst own.
  destruct (own_state (activity c) w) as [state0 w1]. simpl in form_part.
  assert (∀ target : Obj,
            obj_props (assign (assign target override) (savedState c))
            = props_of (savedState c) ∪ (props_of override ∪ obj_props target)
            ∧ obj_ref (assign (assign target override) (savedState c))
              = obj_ref target) as Hassign.
  { intros target. destruct override, (savedState c); simpl;
      by rewrite ?(left_id_L ∅ (∪)). }
  destruct (act_form (activity c)) as [formData|] eqn:Hform.
  - pose proof (getForm_keeps_closure formData c w1)
      as (_ & Hact & _ & _ & _ & _ & _ & _ & Hpend & Hsaved & _).
    subst form_part.
    destruct (getForm Form formData c w1) as [[f c1] w2]. cbn [fst snd] in *.
    assert (pendingFork c1 = pendingFork c) as ->
      by (unfold pendingFork, outbound; by rewrite Hact).
    destruct (pendingFork c).
    + rewrite (surjective_pairing (getPendingOutbound c1)).
      rewrite (getPendingOutbound_depends c1 c Hact Hpend), Hflows.
      rewrite flow_ids_slice. simpl.
      rewrite getPendingOutbound_keeps_savedState, Hsaved.
      eexists. split; [reflexivity|].
      destruct (Hassign (obj_set (obj_set state0 "form" f) "pendingOutbound"
                  (VArr (VStr <$> (flow_id <$> flows))))) as [-> ->].
      split; [done|]. simpl.
      by rewrite !insert_union_singleton_l.
    + simpl. rewrite Hsaved. eexists. split; [reflexivity|].
      destruct (Hassign (obj_set state0 "form" f)) as [-> ->].
      split; [done|]. simpl.
      by rewrite insert_union_singleton_l, (left_id_L ∅ (∪)).
  - subst form_part. simpl.
    destruct (pendingFork c).
    + rewrite (surjective_pairing (getPendingOutbound c)), Hflows.
      rewrite flow_ids_slice. simpl.
      rewrite getPendingOutbound_keeps_savedState.
      eexists. split; [reflexivity|].
      destruct (Hassign (obj_set state0 "pendingOutbound"
                  (VArr (VStr <$> (flow_id <$> flows))))) as [-> ->].
      split; [done|]. simpl.
      by rewrite insert_union_singleton_l, (left_id_L ∅ (∪)).
    + simpl. eexists. split; [reflexivity|].
      destruct (Hassign state0) as [-> ->].
      split; [done|]. by rewrite !(left_id_L ∅ (∪)).
Qed.

(** The snapshot of an activity with at most one outbound edge: the
    pending list is not looked at. *)
Lemma getState_without_fork override c w :
  pendingFork c = false →
  let own := own_state (activity c) w in
  let form_part : gmap string value :=
    match act_form (activity c) with
    | Some formData => {["form" := (getForm Form formData c own.2).1.1]}
    | None => ∅
    end in
  ∃ state,
    (getState Form override c w).1.1 = Normal state
    ∧ obj_ref state = obj_ref own.1
    ∧ obj_props state
      = props_of (savedState c)
        ∪ (props_of override ∪ (form_part ∪ obj_props own.1)).
Proof.
  intros Hsingle own form_part.
  unfold getState; run_world. subst own.
  destruct (own_state (activity c) w) as [state0 w1]. simpl in form_part.
  assert (∀ target : Obj,
            obj_props (assign (assign target override) (savedState c))
            = props_of (savedState c) ∪ (props_of override ∪ obj_props target)
            ∧ obj_ref (assign (assign target override) (savedState c))
              = obj_ref target) as Hassign.
  { intros target. destruct override, (savedState c); simpl;
      by rewrite ?(left_id_L ∅ (∪)). }
  destruct (act_form (activity c)) as [formData|] eqn:Hform.
  - pose proof (getForm_keeps_closure formData c w1)
      as (_ & Hact & _ & _ & _ & _ & _ & _ & Hpend & Hsaved & _).
    subst form_part.
    destruct (getForm Form formData c w1) as [[f c1] w2]. cbn [fst snd] in *.
    assert (pendingFork c1 = pendingFork c) as ->
      by (unfold pendingFork, outbound; by rewrite Hact).
    rewrite Hsingle. simpl. rewrite Hsaved. eexists. split; [reflexivity|].
    destruct (Hassign (obj_set state0 "form" f)) as [-> ->].
    split; [done|]. simpl.
    by rewrite insert_union_singleton_l.
  - subst form_part. simpl. rewrite Hsingle. simpl.
    eexists. split; [reflexivity|].
    destruct (Hassign state0) as [-> ->].
    split; [done|]. by rewrite !(left_id_L ∅ (∪)).
Qed.

(** C7, as the code has it. Take a context on which the snapshot can be
    taken: the activity has at most one outbound edge, or the
    pending-outbound list holds no [undefined] (as it does unless an
    unmatched identifier was restored).  [getState(override)] after
    [setState(saved)] returns the object the activity's own [getState()]
    hook gave (a new empty one when the activity has no hook) with these
    properties, later ones winning: the hook's; [form], the bound form, only
    if the activity declares a form; [pendingOutbound], the identifiers of
    the pending outbound edges in their order, only if the activity has more
    than one outbound edge; the override's; the saved state's.  A key of the
    hook's object that none of the later sources writes keeps the hook's
    value.  So [setState({x: 1})] then [getState({y: 2})] holds both
    [x: 1] and [y: 2], whatever the activity's own state says. *)
Theorem getState_merges saved override c w :
  ((1 < length (act_outbound (activity c)))%nat →
   ∀ cached, pendingOutbound c = Some cached → None ∉ cached) →
  let c' := setState saved c in
  let own :=
    match act_getState (activity c) with
    | Some hook => hook w
    | None => new_object w
    end in
  let form_part : gmap string value :=
    match act_form (activity c) with
    | Some formData => {["form" := (getForm Form formData c' own.2).1.1]}
    | None => ∅
    end in
  ∃ flows state,
    ((1 < length (act_outbound (activity c)))%nat →
     (getPendingOutbound c').1 = slice flows)
    ∧ (getState Form override c' w).1.1 = Normal state
    ∧ obj_ref state = obj_ref own.1
    ∧ obj_props state
      = props_of saved
        ∪ (props_of override
           ∪ ((if bool_decide (1 < length (act_outbound (activity c)))%nat
               then {["pendingOutbound" :=
                        VArr (VStr <$> (flow_id <$> flows))]}
               else ∅)
              ∪ (form_part ∪ obj_props own.1)))
    ∧ (∀ k, props_of saved !! k = None → props_of override !! k = None →
            k ≠ "pendingOutbound" → k ≠ "form" →
            obj_props state !! k = obj_props own.1 !! k)
    ∧ ∀ r1 r2,
        saved = Some (mkObj r1 {["x" := VNum 1]}) →
        override = Some (mkObj r2 {["y" := VNum 2]}) →
        obj_props state !! "x" = Some (VNum 1)
        ∧ obj_props state !! "y" = Some (VNum 2).
Proof.
  intros Hcached c' own form_part.
  assert (own_state (activity c') w = own) as Hhook.
  { unfold own_state, own. simpl. by destruct (act_getState (activity c)). }
  assert (∃ flows state,
            ((1 < length (act_outbound (activity c)))%nat →
             (getPendingOutbound c').1 = slice flows)
            ∧ (getState Form override c' w).1.1 = Normal state
            ∧ obj_ref state = obj_ref own.1
            ∧ obj_props state
              = props_of saved
                ∪ (props_of override
                   ∪ ((if bool_decide
                            (1 < length (act_outbound (activity c)))%nat
                       then {["pendingOutbound" :=
                                VArr (VStr <$> (flow_id <$> flows))]}
                       else ∅)
                      ∪ (form_part ∪ obj_props own.1))))
    as (flows & state & Hflows & Hstate & Href & Hprops).
  { destruct (decide (1 < length (act_outbound (activity c)))%nat)
      as [Hfork|Hsingle].
    - destruct (getState_normal override c' w (Hcached Hfork))
        as (flows & Hflows & state & Hstate & Href & Hprops).
      cbv zeta in Href, Hprops. rewrite Hhook in Href, Hprops.
      exists flows, state. by do 3 (split; [done|]).
    - assert (pendingFork c' = false) as Hnofork
        by (by apply bool_decide_eq_false_2).
      destruct (getState_without_fork override c' w Hnofork)
        as (state & Hstate & Href & Hprops).
      cbv zeta in Href, Hprops. rewrite Hhook in Href, Hprops.
      exists [], state. split; [done|]. do 2 (split; [done|]).
      rewrite bool_decide_eq_false_2 by done.
      by rewrite (left_id_L ∅ (∪)). }
  exists flows, state. do 3 (split; [done|]).
  split; [exact Hprops|]. split.
  - intros k Hsaved Hoverride Hfork Hform. rewrite Hprops.
    assert (form_part !! k = None) as Hnoform.
    { subst form_part. destruct (act_form (activity c)); [|done].
      by apply lookup_singleton_ne. }
    rewrite (lookup_union_r _ _ _ Hsaved), (lookup_union_r _ _ _ Hoverride).
    rewrite lookup_union_r; [by apply lookup_union_r|].
    destruct (bool_decide _); [|done]. by apply lookup_singleton_ne.
  - intros r1 r2 -> ->. rewrite Hprops. simpl. split.
    + apply lookup_union_Some_l, lookup_singleton_eq.
    + rewrite lookup_union_r by done.
      apply lookup_union_Some_l, lookup_singleton_eq.
Qed.

(** *** State restore *)

Lemma restore_array flows items :
  restore (Some flows) (VArr items)
  = Normal ((λ stateFlowId, find (id_matches stateFlowId) flows) <$> items).
Proof. by destruct items. Qed.

(** What one restored entry is: the first live edge with the identifier, or
    [undefined] when no live edge has it. *)
Lemma restored_entry (flows : list SequenceFlow) stateFlowId :
  match find (id_matches stateFlowId) flows with
  | Some f =>
      VStr (flow_id f) = stateFlowId
      ∧ ∃ pre post, flows = pre ++ f :: post
          ∧ ∀ g, g ∈ pre → VStr (flow_id g) ≠ stateFlowId
  | None => ∀ g, g ∈ flows → VStr (flow_id g) ≠ stateFlowId
  end.
Proof.
  assert (∀ g, id_matches stateFlowId g = true ↔ VStr (flow_id g) = stateFlowId)
    as Hmatch.
  { intros g. unfold id_matches. destruct stateFlowId; try (split; done).
    rewrite String.eqb_eq. split; [by intros ->|by intros [=]]. }
  destruct (find (id_matches stateFlowId) flows) as [f|] eqn:Hfind.
  - destruct (find_split _ _ _ Hfind) as (pre & post & -> & Hpre & Hf).
    split; [by apply Hmatch|]. exists pre, post. split; [done|].
    intros g Hg Heq. rewrite Forall_forall in Hpre.
    apply Hmatch in Heq. rewrite (Hpre g Hg) in Heq. done.
  - intros g Hg Heq. apply Hmatch in Heq.
    apply list_elem_of_In in Hg.
    by rewrite (find_none _ _ Hfind g Hg) in Heq.
Qed.

(** C9, as the code has it. Take a persisted state whose [pendingInbound]
    and [pendingOutbound], where present, are lists of identifiers.
    [applyState] throws in one case only: a [TypeError] when the
    [pendingInbound] list is not empty and the activity has no inbound edge
    list at all, and the context is then left as it was.  In every other
    case it raises no error, and every list present replaces the pending
    list by one entry per persisted identifier, in the persisted order: the
    first live edge that has the identifier, or [undefined] where no live
    edge has it.  Nothing is dropped. *)
Theorem applyState_keeps_unmatched c ref props
    (ins outs : option (list value)) :
  props !! "pendingInbound" = VArr <$> ins →
  props !! "pendingOutbound" = VArr <$> outs →
  let restored := applyState (VObj ref props) c in
  let entry flows := λ stateFlowId, find (id_matches stateFlowId) flows in
  match ins, inbound c with
  | Some (_ :: _), None => restored = (Throw TypeError, c)
  | _, _ =>
      restored.1 = Normal ()
      ∧ pendingInbound restored.2
        = match ins with
          | Some items => Some (entry (default [] (inbound c)) <$> items)
          | None => pendingInbound c
          end
      ∧ pendingOutbound restored.2
        = match outs with
          | Some items => Some (entry (outbound c) <$> items)
          | None => pendingOutbound c
          end
  end
  ∧ ∀ flows items i stateFlowId,
      items !! i = Some stateFlowId →
      length (entry flows <$> items) = length items
      ∧ ((∃ f, (entry flows <$> items) !! i = Some (Some f)
               ∧ f ∈ flows ∧ VStr (flow_id f) = stateFlowId)
         ∨ ((entry flows <$> items) !! i = Some None
            ∧ ∀ g, g ∈ flows → VStr (flow_id g) ≠ stateFlowId)).
Proof.
  intros Hins Houts restored entry. subst restored.
  unfold applyState, get_prop. rewrite Hins, Houts.
  split.
  - assert (∀ edges, restore edges (VArr []) = Normal []) as Hempty
      by (by intros [flows|]).
    destruct ins as [[|first rest]|], (inbound c) as [flows_in|],
      outs as [outs|]; cbn -[restore];
      by rewrite ?Hempty, ?restore_array.
  - intros flows items i stateFlowId Hi.
    split; [apply length_fmap|].
    rewrite list_lookup_fmap, Hi. simpl. subst entry. simpl.
    pose proof (restored_entry flows stateFlowId) as Hentry.
    destruct (find (id_matches stateFlowId) flows) as [f|].
    + left. exists f. destruct Hentry as (Hid & pre & post & -> & _).
      split; [done|]. split; [|done]. set_solver.
    + by right.
Qed.

(** Looking an identifier of a live edge up again gives an edge with that
    identifier. *)
Lemma restored_identifier (flows : list SequenceFlow) f :
  f ∈ flows →
  flow_id <$> find (id_matches (VStr (flow_id f))) flows = Some (flow_id f).
Proof.
  intros Hf.
  pose proof (restored_entry flows (VStr (flow_id f))) as Hentry.
  destruct (find (id_matches (VStr (flow_id f))) flows) as [g|].
  - destruct Hentry as [[=Hid] _]. simpl. by rewrite Hid.
  - by destruct (Hentry f Hf).
Qed.

Lemma restored_identifiers (flows pending : list SequenceFlow) :
  pending ⊆ flows →
  identifiers
    ((λ stateFlowId, find (id_matches stateFlowId) flows)
       <$> (VStr <$> (flow_id <$> pending)))
  = identifiers (slice pending).
Proof.
  unfold identifiers.
  induction pending as [|f pending IH]; intros Hsub; [done|].
  simpl. rewrite restored_identifier by set_solver.
  f_equal. apply IH. set_solver.
Qed.

Lemma getPendingOutbound_live c :
  pending_live c → (getPendingOutbound c).1 ⊆ slice (outbound c).
Proof.
  intros Hcached. unfold pending_live in Hcached. unfold getPendingOutbound.
  destruct (pendingOutbound c) as [cached|]; [by apply Hcached|]. simpl.
  destruct (bool_decide _); [|done].
  destruct (find flow_isDefault (outbound c)) as [d|] eqn:Hfind; [|done].
  unfold push. intros x Hin. apply elem_of_app in Hin as [Hin|Hin].
  - by apply splice1_subseteq in Hin.
  - apply list_elem_of_singleton in Hin as ->.
    apply find_some in Hfind as [Hd _].
    apply list_elem_of_fmap. exists d. split; [done|].
    by apply list_elem_of_In.
Qed.

(** *** The pending list stays well-formed *)

Lemma live_transfer c c' :
  activity c' = activity c → pendingOutbound c' = pendingOutbound c →
  pending_live c → pending_live c'.
Proof.
  unfold pending_live, outbound. intros -> ->. done.
Qed.

Lemma execution_live a msg env inb root w :
  pending_live (execution a msg env inb root w).1.
Proof.
  destruct (execution_fresh a msg env inb root w) as [name ->].
  by intros cached [=].
Qed.

Lemma getPendingOutbound_stays_live c :
  pending_live c → pending_live (getPendingOutbound c).2.
Proof.
  intros Hlive. pose proof (getPendingOutbound_live c Hlive) as Hresult.
  unfold getPendingOutbound in *.
  destruct (pendingOutbound c) as [cached|]; [done|].
  simpl in *. by intros cached [= <-].
Qed.

Lemma getPendingInbound_stays_live c :
  pending_live c → pending_live (getPendingInbound c).2.
Proof.
  apply live_transfer; unfold getPendingInbound;
    destruct (pendingInbound c); try done;
    destruct (inbound c) as [[|y rest]|]; try done;
    by destruct (inboundFlow c).
Qed.

Lemma getInput_stays_live c w :
  pending_live c → pending_live (getInput c w).1.2.
Proof.
  pose proof (getInput_keeps_closure c w)
    as (_ & Hact & _ & _ & _ & _ & _ & _ & Hpend & _).
  by apply live_transfer.
Qed.

Lemma getOutput_stays_live c w :
  pending_live c → pending_live (getOutput c w).1.2.
Proof.
  unfold getOutput. destruct (outputParameters c) as [parms|]; [|done].
  run_world. simpl.
  destruct (getVariablesAndServices _ _ _) as [vs w3].
  pose proof (getInput_stays_live c w3) as Hinput.
  by destruct (getInput c w3) as [[input c1] w4].
Qed.

Lemma postpone_stays_live (cb : Callback) c w :
  pending_live c → pending_live (postpone Form cb c w).1.
Proof.
  unfold postpone. run_world.
  destruct (act_form (activity c)) as [formData|]; [|done].
  pose proof (getForm_keeps_closure formData c w)
    as (_ & Hact & _ & _ & _ & _ & _ & _ & Hpend & _).
  destruct (getForm Form formData c w) as [[f c1] w1].
  by apply live_transfer.
Qed.

Lemma getState_stays_live override c w :
  pending_live c → pending_live (getState Form override c w).1.2.
Proof.
  intros Hlive. unfold getState. run_world.
  destruct (own_state (activity c) w) as [state0 w1].
  assert (∀ c1 state w2,
            pending_live c1 →
            pending_live
              ((if pendingFork c1
                then let '(pending, c2) := getPendingOutbound c1 in
                     match flow_ids pending with
                     | Normal ids =>
                         λ w0, (Normal
                                  (assign
                                     (assign
                                        (obj_set state "pendingOutbound"
                                           (VArr ids)) override)
                                     (savedState c2)), c2, w0)
                     | Throw e => λ w0, (Throw e, c2, w0)
                     end
                else λ w0, (Normal (assign (assign state override)
                                      (savedState c1)), c1, w0)) w2).1.2)
    as Htail.
  { intros c1 state w2 Hc1. destruct (pendingFork c1); [|done].
    pose proof (getPendingOutbound_stays_live c1 Hc1) as Hc2.
    destruct (getPendingOutbound c1) as [pending c2].
    by destruct (flow_ids pending). }
  destruct (act_form (activity c)) as [formData|].
  - pose proof (getForm_keeps_closure formData c w1)
      as (_ & Hact & _ & _ & _ & _ & _ & _ & Hpend & _).
    destruct (getForm Form formData c w1) as [[f c1] w2].
    apply Htail. by apply (live_transfer c).
  - by apply Htail.
Qed.

(** Restoring identifiers that all belong to outbound edges keeps the list
    well-formed; an identifier without an edge is what breaks it. *)
Lemma applyState_stays_live state c :
  (∀ items stateFlowId,
      get_prop state "pendingOutbound" = VArr items →
      stateFlowId ∈ items →
      ∃ f, f ∈ outbound c ∧ VStr (flow_id f) = stateFlowId) →
  pending_live c → pending_live (applyState state c).2.
Proof.
  intros Hmatched Hlive. unfold applyState.
  assert (∀ c1, activity c1 = activity c →
            pendingOutbound c1 = pendingOutbound c →
            pending_live
              (if truthy (get_prop state "pendingOutbound")
               then match restore (Some (outbound c1))
                            (get_prop state "pendingOutbound") with
                    | Normal arr =>
                        (Normal (), set_pendingOutbound (Some arr) c1)
                    | Throw e => (Throw e, c1)
                    end
               else (Normal (), c1)).2) as Hstep2.
  { intros c1 Hact Hpend.
    destruct (truthy _); [|by apply (live_transfer c)].
    destruct (get_prop state "pendingOutbound") as [| | | | |items|] eqn:Hids;
      try by apply (live_transfer c).
    rewrite restore_array. simpl. intros cached [= <-] entry Hentry.
    apply list_elem_of_fmap in Hentry as (stateFlowId & -> & Hitem).
    destruct (Hmatched items stateFlowId eq_refl Hitem) as (f & Hf & Hid).
    pose proof (restored_entry (outbound c1) stateFlowId) as Hfound.
    unfold outbound in *. simpl. rewrite Hact.  rewrite Hact in Hfound.
    destruct (find (id_matches stateFlowId) (act_outbound (activity c)))
      as [g|].
    - destruct Hfound as (_ & pre & post & -> & _).
      apply list_elem_of_fmap. exists g. split; [done|]. set_solver.
    - by destruct (Hfound f Hf). }
  destruct state; try done;
    (destruct (truthy (get_prop _ "pendingInbound"));
     [destruct (restore (inbound c) _) as [arr|e];
      [by apply Hstep2|done]
     |by apply Hstep2]).
Qed.

(** C8, as the code has it. Take a context over an activity with two or
    more outbound edges, whose pending-outbound list (if one is set) holds
    outbound edges of the activity, as it does all through a context's life
    unless an unmatched identifier was restored, and whose saved state (if
    any) has no [pendingOutbound] of its own.  The snapshot's
    [pendingInbound] can only come from the saved state or from the
    activity's own state; let it be absent, falsy, or a list [applyState]
    can restore on the activity.  Then [getState()] returns a snapshot,
    [applyState] of that snapshot on a newly constructed context for the
    same activity returns normally, and the new context's
    [getPendingOutbound()] lists the same identifiers in the same order as
    the original's. *)
Theorem pendingOutbound_round_trip c w msg env inb root w' :
  (2 ≤ length (outbound c))%nat →
  pending_live c →
  (∀ saved, savedState c = Some saved →
            obj_props saved !! "pendingOutbound" = None) →
  (∀ ids,
      (props_of (savedState c) ∪ obj_props (own_state (activity c) w).1)
        !! "pendingInbound" = Some ids →
      truthy ids = true →
      ∃ arr, restore (act_inbound (activity c)) ids = Normal arr) →
  ∃ state,
    (getState Form None c w).1.1 = Normal state
    ∧ let restored :=
        applyState (obj_value state)
          (execution (activity c) msg env inb root w').1 in
      restored.1 = Normal ()
      ∧ identifiers (getPendingOutbound restored.2).1
        = identifiers (getPendingOutbound c).1.
Proof.
  intros Hfork Hlive Hsaved Hinbound.
  assert (∀ cached, pendingOutbound c = Some cached → None ∉ cached)
    as Hdefined.
  { intros cached Hc Hnone. by apply (Hlive cached Hc), slice_defined in Hnone. }
  destruct (getState_normal None c w Hdefined)
    as (pending & Hpending & state & Hstate & _ & Hprops).
  exists state. split; [done|].
  assert (pendingFork c = true) as Hforked
    by (apply bool_decide_eq_true_2; lia).
  rewrite Hforked in Hprops.
  assert (get_prop (obj_value state) "pendingOutbound"
          = VArr (VStr <$> (flow_id <$> pending))) as Hids.
  { unfold get_prop, obj_value. rewrite Hprops.
    assert (props_of (savedState c) !! "pendingOutbound" = None) as Hnone.
    { destruct (savedState c) as [saved|] eqn:Hs; [by apply Hsaved|done]. }
    rewrite lookup_union_r by done. simpl.
    rewrite (left_id_L ∅ (∪)).
    by rewrite (lookup_union_Some_l _ _ _ _ (lookup_singleton_eq _ _)). }
  assert (obj_props state !! "pendingInbound"
          = (props_of (savedState c) ∪ obj_props (own_state (activity c) w).1)
              !! "pendingInbound") as Hsource.
  { rewrite Hprops. simpl. rewrite (left_id_L ∅ (∪)).
    destruct (props_of (savedState c) !! "pendingInbound") as [ids|] eqn:Hs.
    - by rewrite !(lookup_union_Some_l _ _ _ _ Hs).
    - rewrite !(lookup_union_r _ _ _ Hs).
      rewrite lookup_union_r by done.
      apply lookup_union_r.
      destruct (act_form (activity c)); [done|done]. }
  assert (pending ⊆ outbound c) as Hsub.
  { intros f Hf. pose proof (getPendingOutbound_live c Hlive) as Hl.
    rewrite Hpending in Hl.
    assert (Some f ∈ slice (outbound c)) as Hin
      by (apply Hl, list_elem_of_fmap; by exists f).
    apply list_elem_of_fmap in Hin as (g & [= ->] & Hg). done. }
  destruct (execution_fresh (activity c) msg env inb root w') as [name ->].
  set (fresh := mkContext name (activity c) msg env inb root false None None
                  None VUndefined None None None None None).
  assert (∀ c1, activity c1 = activity c →
            let step2 :=
              if truthy (get_prop (obj_value state) "pendingOutbound")
              then match restore (Some (outbound c1))
                           (get_prop (obj_value state) "pendingOutbound") with
                   | Normal arr => (Normal (), set_pendingOutbound (Some arr) c1)
                   | Throw e => (Throw e, c1)
                   end
              else (Normal (), c1) in
            step2.1 = Normal ()
            ∧ identifiers (getPendingOutbound step2.2).1
              = identifiers (getPendingOutbound c).1) as Hstep2.
  { intros c1 Hact step2. subst step2. rewrite Hids. simpl truthy. cbv iota.
    rewrite restore_array. split; [done|].
    unfold getPendingOutbound at 1. simpl.
    rewrite Hpending. unfold outbound at 1. rewrite Hact.
    by apply restored_identifiers. }
  unfold applyState, obj_value. fold (obj_value state).
  destruct (truthy (get_prop (obj_value state) "pendingInbound")) eqn:Htruthy.
  - assert (∃ arr, restore (inbound fresh)
                     (get_prop (obj_value state) "pendingInbound")
                   = Normal arr) as [arr ->].
    { unfold get_prop, obj_value in Htruthy |- *. rewrite Hsource in Htruthy |- *.
      destruct ((props_of (savedState c)
                 ∪ obj_props (own_state (activity c) w).1)
                  !! "pendingInbound") as [ids|] eqn:Hids'; [|done].
      by apply (Hinbound ids). }
    apply (Hstep2 (set_pendingInbound (Some arr) fresh) eq_refl).
  - apply (Hstep2 fresh eq_refl).
Qed.
End Properties.

(** ** The properties at concrete graphs *)


Lemma gateway_pending_inbound :
  (getPendingInbound
     (execution gateway VUndefined env0 (Some flowA) VNull world0).1).1
  = slice [flowC]
  ∧ (getPendingInbound
       (execution gateway VUndefined env0 None VNull world0).1).1
    = slice [flowA; flowC].
Proof.
  destruct (getPendingInbound_excludes_trigger gateway VUndefined env0 VNull
              world0) as [Htriggered Hstart].
  split; [|exact Hstart].
  destruct (Htriggered [flowA; flowC] flowA eq_refl) as [_ Hminus].
  - by left.
  - rewrite Hminus; [reflexivity|].
    repeat constructor; set_solver.
Defined.

(** A token object that only shares the identifier of [A] removes nothing. *)
Lemma gateway_twin_trigger :
  flow_id flowA_twin = flow_id flowA
  ∧ act_inbound gateway = Some [flowA; flowC]
  ∧ (flowA_twin ∉ [flowA; flowC])
  ∧ (getPendingInbound
       (execution gateway VUndefined env0 (Some flowA_twin) VNull world0).1).1
    = slice [flowA; flowC].
Proof.
  assert (flowA_twin ∉ [flowA; flowC]) as Hnot.
  { intros Hin. apply elem_of_cons in Hin as [Heq|Hin]; [discriminate|].
    apply elem_of_cons in Hin as [Heq|Hin]; [discriminate|].
    by apply elem_of_nil in Hin. }
  split; [reflexivity|]. split; [reflexivity|]. split; [exact Hnot|].
  apply (getPendingInbound_by_identity gateway VUndefined env0 VNull world0
           [flowA; flowC] flowA_twin eq_refl Hnot).
Defined.

(** Two iterations of a parallel loop, made one after the other with the
    different random values 0.25 and 0.25 + 2^-30, come out with one and
    the same identifier: both products floor to 247249. *)
Lemma iteration_identifiers_collide :
  let parent := (execution plain_task VUndefined env0 None VNull
                   world_close_draws).1 in
  let first := getIteration loop_message parent world_close_draws in
  let second := getIteration loop_message parent first.2 in
  parallel_loop loop_message = true
  ∧ ¬ (random world_close_draws 0 == random world_close_draws 1)%Q
  ∧ id first.1 = "task_3f0c9"
  ∧ id second.1 = "task_3f0c9"
  ∧ ¬ (id first.1 ≠ id second.1).
Proof.
  intros parent first second.
  split; [reflexivity|]. split; [by vm_compute|].
  split; [by vm_compute|]. split; [by vm_compute|].
  intros Hne. apply Hne. by vm_compute.
Qed.

Lemma iteration_identifiers :
  let parent := (execution plain_task VUndefined env0 None VNull world0).1 in
  id parent = "task"
  ∧ id (getIteration sequential_loop_message parent world0).1 = "task"
  ∧ id (getIteration loop_message parent world0).1 = "task_2af8".
Proof.
  intros parent.
  destruct (execution_identity plain_task VUndefined env0 None VNull world0)
    as [Hparent Hiteration].
  split; [exact Hparent|]. split.
  - exact (Hiteration parent sequential_loop_message world0 world0).
  - destruct (Hiteration parent loop_message world0 world0) as [Hid _].
    exact Hid.
Defined.

(** Without declared input parameters two calls of [getInput()] on one
    context return two objects, equal in content only. *)
Lemma getInput_not_memoized_without_parameters :
  let c := (execution plain_task VUndefined env0 None VNull world0).1 in
  let first := getInput c world0 in
  let second := getInput first.1.2 first.2 in
  inputParameters c = None
  ∧ obj_props first.1.1 = obj_props second.1.1
  ∧ obj_ref first.1.1 ≠ obj_ref second.1.1
  ∧ first.1.1 ≠ second.1.1.
Proof.
  intros c first second.
  split; [reflexivity|]. split; [reflexivity|].
  split; [by vm_compute|].
  intros Heq. apply (f_equal obj_ref) in Heq. by vm_compute in Heq.
Qed.

Lemma getInput_memoized_with_parameters :
  let c := (execution task_with_io VUndefined env0 None VNull world0).1 in
  let input := (getInput c world0).1.1 in
  let c' := (getInput c world0).1.2 in
  inputResult c = None
  ∧ obj_props input = {["who" := VNum 42]}
  ∧ dom (obj_props input) = {["who"]}
  ∧ ∀ w', getInput c' w' = ((input, c'), w').
Proof.
  intros c input c'.
  pose proof (getInput_resolves_and_memoizes c world0 eq_refl) as Hinput.
  change (inputParameters c) with (Some [who_from_answer]) in Hinput.
  destruct Hinput as (_ & Hdom & _ & Hmemo).
  split; [reflexivity|]. split; [reflexivity|].
  split; [|exact Hmemo].
  etrans; [exact Hdom|]. simpl. by rewrite (right_id_L ∅ (∪)).
Defined.

Lemma getOutput_result_from_r :
  let c := (execution task_with_io VUndefined env0 None VNull world0).1 in
  ∃ ref,
    (getOutput (setResult (VObj 50 {["r" := VNum 10]}) c) world0).1.1
    = VObj ref {["result" := VNum 10]}.
Proof.
  intros c.
  pose proof (getOutput_resolves c (VObj 50 {["r" := VNum 10]}) world0)
    as Houtput.
  change (outputParameters c) with (Some [result_from_r]) in Houtput.
  destruct Houtput as (ref & props & scope & Hout & _ & _ & _ & Hscenario).
  exists ref. rewrite Hout. f_equal.
  exact (Hscenario eq_refl 50%nat eq_refl).
Defined.

Lemma postpone_then_signal :
  let c := (execution plain_task VUndefined env0 None VNull world0).1 in
  let c' := (postpone record_form (recorder "cb") c world0).1 in
  let payload := VObj 7 {["value" := VNum 42]} in
  ∃ on_signal,
    signal c' = Some on_signal
    ∧ trace (on_signal [payload] world0) = [Called "cb" [VNull; payload]].
Proof.
  intros c c' payload.
  destruct (postpone_installs_handles record_form (recorder "cb") c world0)
    as (_ & on_error & on_signal & on_complete & _ & Hsignal & _ & _ & _ & _
        & Hrecorded).
  exists on_signal. split; [exact Hsignal|].
  destruct (Hrecorded "cb" eq_refl VUndefined payload [] world0)
    as (_ & Honce & _).
  exact Honce.
Defined.

Lemma getState_x_and_y :
  let c := (getPendingOutbound
              (execution stateful_gateway VUndefined env0 (Some flowA) VNull
                 world0).1).2 in
  let saved := Some (mkObj 9 {["x" := VNum 1]}) in
  let override := Some (mkObj 8 {["y" := VNum 2]}) in
  ((1 < length (act_outbound (activity c)))%nat →
   ∀ cached, pendingOutbound c = Some cached → None ∉ cached)
  ∧ ∃ state,
      (getState record_form override (setState saved c) world0).1.1
      = Normal state
      ∧ obj_props state !! "x" = Some (VNum 1)
      ∧ obj_props state !! "y" = Some (VNum 2)
      ∧ obj_props state !! "z" = Some (VNum 5)
      ∧ obj_props state !! "pendingOutbound"
        = Some (VArr [VStr "A"; VStr "C"; VStr "B"]).
Proof.
  intros c saved override.
  assert ((1 < length (act_outbound (activity c)))%nat →
          ∀ cached, pendingOutbound c = Some cached → None ∉ cached) as Hcached.
  { intros _ cached [= <-]. apply (slice_defined [flowA; flowC; flowB]). }
  split; [exact Hcached|].
  destruct (getState_merges record_form saved override c world0 Hcached)
    as (flows & state & _ & Hstate & _ & _ & Hown & Hxy).
  exists state. split; [exact Hstate|].
  destruct (Hxy 9%nat 8%nat eq_refl eq_refl) as [Hx Hy].
  split; [exact Hx|]. split; [exact Hy|]. split.
  - etrans; [apply (Hown "z"); done|]. reflexivity.
  - vm_compute in Hstate. injection Hstate as <-. reflexivity.
Defined.

(** After a restore that left [undefined] in the pending-outbound list,
    [setState({x: 1})] then [getState({y: 2})] returns no mapping: it
    throws. *)
Lemma getState_throws_on_restored_undefined :
  let fresh := (execution gateway VUndefined env0 None VNull world0).1 in
  let persisted :=
    VObj 7 {["pendingOutbound" := VArr [VStr "A"; VStr "gone"]]} in
  let c := (applyState persisted fresh).2 in
  let saved := Some (mkObj 9 {["x" := VNum 1]}) in
  let override := Some (mkObj 8 {["y" := VNum 2]}) in
  (applyState persisted fresh).1 = Normal ()
  ∧ pendingOutbound c = Some [Some flowA; None]
  ∧ (getState record_form override (setState saved c) world0).1.1
    = Throw TypeError
  ∧ ¬ ∃ state,
        (getState record_form override (setState saved c) world0).1.1
        = Normal state.
Proof.
  intros fresh persisted c saved override.
  split; [reflexivity|]. split; [reflexivity|]. split; [reflexivity|].
  intros [state Hstate]. by vm_compute in Hstate.
Qed.

Lemma gateway_round_trip :
  let c := (getPendingOutbound
              (execution gateway VUndefined env0 (Some flowA) VNull world0).1).2 in
  (2 ≤ length (outbound c))%nat
  ∧ pending_live c
  ∧ (∀ saved, savedState c = Some saved →
              obj_props saved !! "pendingOutbound" = None)
  ∧ ∃ state,
      (getState record_form None c world0).1.1 = Normal state
      ∧ let restored :=
          applyState (obj_value state)
            (execution gateway loop_message env0 None VNull world0).1 in
        restored.1 = Normal ()
        ∧ identifiers (getPendingOutbound restored.2).1
          = [Some "A"; Some "C"; Some "B"].
Proof.
  intros c.
  assert (2 ≤ length (outbound c))%nat as Hfork by (simpl; lia).
  assert (pending_live c) as Hlive.
  { intros cached [= <-]. set_solver. }
  assert (∀ saved, savedState c = Some saved
                   → obj_props saved !! "pendingOutbound" = None) as Hsaved.
  { intros saved [=]. }
  assert (∀ ids,
            (props_of (savedState c) ∪ obj_props (own_state (activity c) world0).1)
              !! "pendingInbound" = Some ids →
            truthy ids = true →
            ∃ arr, restore (act_inbound (activity c)) ids = Normal arr)
    as Hinbound.
  { intros ids [=]. }
  do 3 (split; [done|]).
  destruct (pendingOutbound_round_trip record_form c world0 loop_message env0
              None VNull world0 Hfork Hlive Hsaved Hinbound)
    as (state & Hstate & Hreturns & Hsame).
  exists state. split; [exact Hstate|].
  split; [exact Hreturns|].
  etrans; [exact Hsame|]. reflexivity.
Defined.

(** A saved state with a [pendingOutbound] of its own wins over the list
    [getState()] computes: the round trip restores [B] alone where the
    original context has [A; C; B] pending. *)
Lemma round_trip_restores_saved_list :
  let original :=
    setState (Some (mkObj 9 {["pendingOutbound" := VArr [VStr "B"]]}))
      (execution gateway VUndefined env0 (Some flowA) VNull world0).1 in
  let fresh := (execution gateway VUndefined env0 (Some flowA) VNull world0).1 in
  (2 ≤ length (outbound original))%nat
  ∧ ∃ state,
      (getState record_form None original world0).1.1 = Normal state
      ∧ (applyState (obj_value state) fresh).1 = Normal ()
      ∧ identifiers (getPendingOutbound (applyState (obj_value state) fresh).2).1
        = [Some "B"]
      ∧ identifiers (getPendingOutbound original).1
        = [Some "A"; Some "C"; Some "B"]
      ∧ identifiers (getPendingOutbound (applyState (obj_value state) fresh).2).1
        ≠ identifiers (getPendingOutbound original).1.
Proof.
  intros original fresh. split; [simpl; lia|].
  eexists. split; [reflexivity|].
  split; [reflexivity|]. split; [reflexivity|]. split; [reflexivity|].
  intros Heq. by vm_compute in Heq.
Qed.

(** A persisted identifier that matches no outbound edge stays in the
    restored list as [undefined]; the snapshot of such a context throws. *)
Lemma applyState_leaves_undefined :
  let c := (execution gateway VUndefined env0 None VNull world0).1 in
  let state := VObj 7 {["pendingOutbound" := VArr [VStr "A"; VStr "gone"]]} in
  let restored := applyState state c in
  restored.1 = Normal ()
  ∧ (getPendingOutbound restored.2).1 = [Some flowA; None]
  ∧ (getPendingOutbound restored.2).1 ≠ slice [flowA]
  ∧ (getState record_form None restored.2 world0).1.1 = Throw TypeError.
Proof.
  intros c state restored.
  split; [reflexivity|]. split; [reflexivity|]. split; [|reflexivity].
  intros Heq. by vm_compute in Heq.
Qed.

Lemma applyState_gateway :
  let c := (execution gateway VUndefined env0 None VNull world0).1 in
  let props : gmap string value :=
    {["pendingOutbound" := VArr [VStr "A"; VStr "gone"]]} in
  let restored := applyState (VObj 7 props) c in
  props !! "pendingInbound" = None
  ∧ props !! "pendingOutbound" = Some (VArr [VStr "A"; VStr "gone"])
  ∧ restored.1 = Normal ()
  ∧ pendingInbound restored.2 = None
  ∧ pendingOutbound restored.2 = Some [Some flowA; None].
Proof.
  intros c props restored.
  assert (props !! "pendingInbound" = None) as Hins by reflexivity.
  assert (props !! "pendingOutbound" = Some (VArr [VStr "A"; VStr "gone"]))
    as Houts by reflexivity.
  do 2 (split; [done|]).
  destruct (applyState_keeps_unmatched c 7%nat props None
              (Some [VStr "A"; VStr "gone"]) Hins Houts)
    as ((Hnormal & Hinbound & Houtbound) & _).
  split; [exact Hnormal|]. split; [exact Hinbound|].
  etrans; [exact Houtbound|]. reflexivity.
Defined.

(** ** Further properties of the code *)

(** *** The identifier space *)

(** The nearest integer is within a half of the number. *)
Lemma round_half_even_near (q : Q) :
  (inject_Z (round_half_even q) <= q + (1 # 2))%Q
  ∧ (q - (1 # 2) <= inject_Z (round_half_even q))%Q.
Proof.
  unfold round_half_even.
  pose proof (Qfloor_le q) as Hlow.
  pose proof (Qlt_floor q) as Hhigh.
  rewrite inject_Z_plus in Hhigh. change (inject_Z 1) with 1%Q in Hhigh.
  destruct (q - inject_Z (Qfloor q) ?= 1 # 2)%Q eqn:Hcmp.
  - apply Qeq_alt in Hcmp. destruct (Z.even (Qfloor q));
      rewrite ?inject_Z_plus; change (inject_Z 1) with 1%Q; split; lra.
  - apply Qlt_alt in Hcmp. split; lra.
  - apply Qgt_alt in Hcmp. rewrite inject_Z_plus.
    change (inject_Z 1) with 1%Q. split; lra.
Qed.

Lemma round_half_even_nonneg (q : Q) : (0 <= q)%Q → 0 ≤ round_half_even q.
Proof.
  intros Hq. apply Qfloor_resp_le in Hq. change (Qfloor 0) with 0 in Hq.
  unfold round_half_even.
  destruct (_ ?= _)%Q; [destruct (Z.even _)| |]; lia.
Qed.

Lemma pow2_pos (e : Z) : (0 < pow2 e)%Q.
Proof.
  unfold pow2. destruct (0 <=? e) eqn:He; [|reflexivity].
  apply Z.leb_le in He. change 0%Q with (inject_Z 0). rewrite <- Zlt_Qlt. lia.
Qed.

Lemma pow2_small (e : Z) : e ≤ -33 → (pow2 e <= 1 # 8589934592)%Q.
Proof.
  intros He. unfold pow2.
  destruct (0 <=? e) eqn:Hsign; [apply Z.leb_le in Hsign; lia|].
  unfold Qle. simpl.
  assert (2 ^ 33 ≤ 2 ^ (- e)) as Hpow by (apply Z.pow_le_mono_r; lia).
  change (2 ^ 33) with 8589934592 in Hpow.
  rewrite Z2Pos.id by lia. lia.
Qed.

Lemma binade_small (a : Q) :
  (0 < a)%Q → (a < inject_Z (2 ^ 20))%Q → binade a ≤ 19.
Proof.
  intros Hpos Hlt. unfold binade.
  destruct (Qle_bool 1 a) eqn:Hone.
  - apply Qle_bool_iff in Hone.
    apply Qfloor_resp_le in Hone. change (Qfloor 1) with 1 in Hone.
    assert (Qfloor a < 2 ^ 20) as Hfloor.
    { rewrite Zlt_Qlt. eapply Qle_lt_trans; [apply Qfloor_le|done]. }
    apply Z.log2_lt_pow2 in Hfloor; lia.
  - pose proof (Z.log2_up_nonneg (Qceiling (/ a))). lia.
Qed.

(** Below 2^20 doubles lie 2^-33 apart or closer, so the double nearest to
    a number there is off by 2^-34 at most; it is not negative when the
    number is not. *)
Lemma round_double_near (x : Q) :
  (0 <= x)%Q → (x < inject_Z (2 ^ 20))%Q →
  (0 <= round_double x)%Q ∧ (round_double x <= x + (1 # 17179869184))%Q.
Proof.
  intros Hpos Hlt. unfold round_double.
  destruct (Qeq_bool x 0) eqn:Hzero; [split; [done|lra]|].
  assert (0 < x)%Q as Hx.
  { apply Qle_lteq in Hpos as [Hx|Hx]; [done|].
    symmetry in Hx. apply Qeq_bool_iff in Hx. congruence. }
  assert (Qle_bool 0 x = true) as -> by (by apply Qle_bool_iff).
  assert (Qabs x == x)%Q as Habs by (by apply Qabs_pos).
  set (a := Qabs x) in *.
  assert (binade a ≤ 19) as Hbinade by (apply binade_small; by rewrite Habs).
  set (e := Z.max (binade a) (-1022)).
  pose proof (pow2_pos (e - 52)) as Hulp.
  pose proof (pow2_small (e - 52) ltac:(lia)) as Hsmall.
  set (ulp := pow2 (e - 52)) in *.
  assert (0 <= a / ulp)%Q as Hquot.
  { apply Qle_shift_div_l; [done|]. rewrite Habs. lra. }
  pose proof (round_half_even_nonneg _ Hquot) as Hm.
  destruct (round_half_even_near (a / ulp)) as [Hup _].
  set (m := round_half_even (a / ulp)) in *.
  split.
  - apply Qmult_le_0_compat; [|lra]. by rewrite Zle_Qle in Hm.
  - apply (Qmult_le_compat_r _ _ ulp) in Hup; [|lra].
    assert ((a / ulp + (1 # 2)) * ulp == x + (1 # 2) * ulp)%Q as Heq.
    { rewrite <- Habs. field. lra. }
    rewrite Heq in Hup. lra.
Qed.

(** The product is rounded before it is floored: a random value whose exact
    product with 988999 lies just below 600000 gives the suffix of 611000,
    not that of 610999. *)
Lemma generateId_rounds_the_product :
  let r := random world_rounding_draw 0 in
  Qfloor (r * inject_Z 988999) + 11000 = 610999
  ∧ next_rand world_rounding_draw = 611000
  ∧ (generateId world_rounding_draw).1 = "952b8".
Proof. split; [|split]; by vm_compute. Qed.

(** X1. [Math.random()] returns a double in [[0, 1)], so a value from 0 up
    to 1 - 2^-53, the largest double below 1.  For such a value the integer
    behind the suffix lies between 11000 and 999998: the upper constant
    999999 is never reached, not even through the rounding of the product,
    and the suffix is never short of 11000.  The call draws one random value
    and allocates nothing. *)
Theorem generateId_range w :
  (0 <= random w (random_calls w))%Q →
  (random w (random_calls w) <= 1 - (1 # 9007199254740992))%Q →
  (generateId w).1 = toString16 (next_rand w)
  ∧ 11000 ≤ next_rand w ≤ 999998
  ∧ random_calls (generateId w).2 = S (random_calls w)
  ∧ next_ref (generateId w).2 = next_ref w.
Proof.
  intros Hlow Hhigh. split; [reflexivity|]. split; [|done].
  unfold next_rand, double_mul.
  set (r := random w (random_calls w)) in *.
  assert (0 <= r * inject_Z 988999)%Q as Hpos.
  { apply Qmult_le_0_compat; [done|]. by vm_compute. }
  assert (r * inject_Z 988999
          <= (1 - (1 # 9007199254740992)) * inject_Z 988999)%Q as Hle.
  { apply Qmult_le_compat_r; [done|]. by vm_compute. }
  assert ((1 - (1 # 9007199254740992)) * inject_Z 988999 + (1 # 17179869184)
          < inject_Z 988999)%Q as Hroom by reflexivity.
  assert (inject_Z 988999 < inject_Z (2 ^ 20))%Q as Hbig by reflexivity.
  destruct (round_double_near (r * inject_Z 988999) Hpos) as [Hnonneg Hnear].
  { eapply Qle_lt_trans; [exact Hle|].
    eapply Qle_lt_trans; [|exact Hbig].
    apply Qlt_le_weak. eapply Qle_lt_trans; [|exact Hroom].
    rewrite <- (Qplus_0_r ((1 - (1 # 9007199254740992)) * inject_Z 988999)) at 1.
    apply Qplus_le_r. by vm_compute. }
  set (product := round_double (r * inject_Z 988999)) in *.
  apply Qfloor_resp_le in Hnonneg. change (Qfloor 0) with 0 in Hnonneg.
  assert (Qfloor product < 988999) as Hfloor.
  { rewrite Zlt_Qlt. eapply Qle_lt_trans; [apply Qfloor_le|].
    eapply Qle_lt_trans; [exact Hnear|].
    eapply Qle_lt_trans; [|exact Hroom].
    apply Qplus_le_l. exact Hle. }
  lia.
Qed.

Section FurtherProperties.
Context {Env : Type} `{Environment Env} (Form : FormModule Env).
Implicit Types (c : ExecutionContext Env) (w : World) (a : Activity).
Implicit Types (env : Env) (msg root state : value).

(** *** State restore *)

Lemma applyState_outside_memo state c :
  same_outside_memo c (applyState state c).2
  ∧ inputResult (applyState state c).2 = inputResult c.
Proof.
  unfold same_outside_memo, applyState.
  destruct state; try done;
    (destruct (truthy (get_prop _ "pendingInbound"));
     [destruct (restore (inbound c) _) as [arr|e]|]; try done;
     (destruct (truthy (get_prop _ "pendingOutbound")); [|done];
      by destruct (restore _ _))).
Qed.

(** X2. [applyState] changes nothing on a context but its two pending
    lists, whatever the state and whether or not it throws, and applying the
    same state a second time changes nothing any more. *)
Theorem applyState_idempotent state c :
  same_outside_memo c (applyState state c).2
  ∧ inputResult (applyState state c).2 = inputResult c
  ∧ applyState state (applyState state c).2 = applyState state c.
Proof.
  destruct (applyState_outside_memo state c) as [Hsame Hinput].
  split; [done|]. split; [done|].
  clear Hsame Hinput. destruct c. unfold applyState, inbound, outbound.
  destruct state; try done.
  generalize (get_prop (VObj ref props) "pendingInbound") as ins.
  generalize (get_prop (VObj ref props) "pendingOutbound") as outs.
  intros outs ins. unfold set_pendingInbound, set_pendingOutbound.
  cbn -[restore].
  destruct (truthy ins) eqn:Hti;
    [destruct (restore (act_inbound activity0) ins) as [arr|e] eqn:Hin|];
    cbn -[restore]; rewrite ?Hti, ?Hin; try done;
    (destruct (truthy outs) eqn:Hto;
     [destruct (restore (Some (act_outbound activity0)) outs)
        as [arr'|e'] eqn:Hout|];
     cbn -[restore]; rewrite ?Hti, ?Hin; cbn -[restore];
     by rewrite ?Hto, ?Hout).
Qed.

(** X3. Where [applyState] throws. A [null] or [undefined] state and a
    truthy [pendingInbound] that is not an array (or a non-empty one when the
    activity has no inbound list) throw before anything is changed.  A
    [pendingOutbound] that is truthy and not an array throws after the
    pending-inbound list has already been replaced: the restore is not
    atomic. *)
Theorem applyState_failures state c :
  let entry flows := λ stateFlowId, find (id_matches stateFlowId) flows in
  (state = VUndefined ∨ state = VNull →
   applyState state c = (Throw TypeError, c))
  ∧ (truthy (get_prop state "pendingInbound") = true →
     (∀ items, get_prop state "pendingInbound" ≠ VArr items) →
     applyState state c = (Throw TypeError, c))
  ∧ (∀ first rest,
       get_prop state "pendingInbound" = VArr (first :: rest) →
       inbound c = None →
       applyState state c = (Throw TypeError, c))
  ∧ (∀ ins flows,
       get_prop state "pendingInbound" = VArr ins →
       inbound c = Some flows →
       truthy (get_prop state "pendingOutbound") = true →
       (∀ items, get_prop state "pendingOutbound" ≠ VArr items) →
       applyState state c
       = (Throw TypeError, set_pendingInbound (Some (entry flows <$> ins)) c)).
Proof.
  intros entry. split; [by intros [-> | ->]|].
  assert (∀ edges v, (∀ items, v ≠ VArr items) →
            restore edges v = Throw TypeError) as Hbad.
  { intros edges v Hv. destruct v; try done. by destruct (Hv items). }
  split; [|split].
  - intros Htruthy Hnot. unfold applyState.
    destruct state; try done;
      by rewrite Htruthy, (Hbad _ _ Hnot).
  - intros first rest Hins Hnone. unfold applyState.
    destruct state; try done; by rewrite Hins, Hnone.
  - intros ins flows Hins Hflows Htruthy Hnot. unfold applyState.
    destruct state; try done.
    rewrite Hins, Hflows, restore_array, Htruthy. cbn -[restore get_prop].
    by rewrite (Hbad _ _ Hnot).
Qed.

(** X4. A restored list is what the accessors return from then on: the
    pending-outbound list is not put into default-last order again, the
    triggering edge is not taken out of the pending-inbound list again, and
    an empty persisted list gives an empty pending list although the
    activity has edges. *)
Theorem restored_lists_are_returned state c ins outs flows :
  get_prop state "pendingInbound" = VArr ins →
  get_prop state "pendingOutbound" = VArr outs →
  inbound c = Some flows →
  let entry flows := λ stateFlowId, find (id_matches stateFlowId) flows in
  let c' := (applyState state c).2 in
  (applyState state c).1 = Normal ()
  ∧ getPendingInbound c' = (entry flows <$> ins, c')
  ∧ getPendingOutbound c' = (entry (outbound c) <$> outs, c')
  ∧ (ins = [] → (getPendingInbound c').1 = [])
  ∧ (outs = [] → (getPendingOutbound c').1 = []).
Proof.
  intros Hins Houts Hflows entry c'. subst c'.
  assert (applyState state c
          = (Normal (),
             set_pendingOutbound (Some (entry (outbound c) <$> outs))
               (set_pendingInbound (Some (entry flows <$> ins)) c)))
    as ->.
  { unfold applyState. destruct state; try done.
    rewrite Hins, Houts, Hflows, restore_array. cbn -[restore].
    by rewrite restore_array. }
  split; [done|]. split; [done|]. split; [done|].
  split; by intros ->.
Qed.

(** *** The pending-flow accessors *)

Lemma set_pendingInbound_same c : set_pendingInbound (pendingInbound c) c = c.
Proof. by destruct c. Qed.

Lemma set_pendingOutbound_same c : set_pendingOutbound (pendingOutbound c) c = c.
Proof. by destruct c. Qed.

Lemma getPendingInbound_frame c :
  set_pendingInbound (pendingInbound (getPendingInbound c).2) c
  = (getPendingInbound c).2.
Proof.
  unfold getPendingInbound.
  destruct (pendingInbound c) as [cached|];
    [apply set_pendingInbound_same|].
  destruct (inbound c) as [[|first rest]|];
    try apply set_pendingInbound_same.
  destruct (inboundFlow c); [done|apply set_pendingInbound_same].
Qed.

Lemma getPendingOutbound_frame c :
  set_pendingOutbound (pendingOutbound (getPendingOutbound c).2) c
  = (getPendingOutbound c).2.
Proof.
  unfold getPendingOutbound.
  destruct (pendingOutbound c) as [cached|]; [|done].
  apply set_pendingOutbound_same.
Qed.

(** X5. Both accessors give the same answer when asked again, on every
    context, restored or not; each touches no variable but its own cached
    list; and the order in which the two are first called does not matter. *)
Theorem pending_accessors_stable c :
  let after_in := (getPendingInbound c).2 in
  let after_out := (getPendingOutbound c).2 in
  getPendingInbound after_in = getPendingInbound c
  ∧ getPendingOutbound after_out = getPendingOutbound c
  ∧ set_pendingInbound (pendingInbound after_in) c = after_in
  ∧ set_pendingOutbound (pendingOutbound after_out) c = after_out
  ∧ (getPendingOutbound after_in).1 = (getPendingOutbound c).1
  ∧ (getPendingInbound after_out).1 = (getPendingInbound c).1
  ∧ (getPendingOutbound after_in).2 = (getPendingInbound after_out).2.
Proof.
  intros after_in after_out. subst after_in after_out.
  unfold getPendingInbound, getPendingOutbound, inbound, outbound.
  destruct c. cbn [pendingInbound pendingOutbound activity inboundFlow].
  destruct pendingInbound0 as [cachedIn|], pendingOutbound0 as [cachedOut|];
    destruct (act_inbound activity0) as [[|first rest]|] eqn:Hinbound;
    destruct inboundFlow0 as [trigger|];
    cbn [pendingInbound pendingOutbound activity inboundFlow fst snd
         set_pendingInbound set_pendingOutbound];
    rewrite ?Hinbound; repeat split; reflexivity.
Qed.

(** X6. The computed pending-outbound list never loses or repeats an edge,
    whatever the number of outbound edges; with at most one outbound edge it
    is the edge list as it stands, a lone default edge included; and the
    list is kept as the context's pending list. *)
Theorem getPendingOutbound_keeps_every_edge c :
  pendingOutbound c = None →
  (getPendingOutbound c).1 ≡ₚ slice (outbound c)
  ∧ ((length (outbound c) ≤ 1)%nat →
     (getPendingOutbound c).1 = slice (outbound c))
  ∧ pendingOutbound (getPendingOutbound c).2 = Some (getPendingOutbound c).1.
Proof.
  intros Hunset. unfold getPendingOutbound. rewrite Hunset. simpl.
  rewrite length_slice. split; [|split; [|done]].
  - destruct (bool_decide _); [|done].
    destruct (find flow_isDefault (outbound c)) as [d|] eqn:Hfind; [|done].
    destruct (find_split _ _ _ Hfind) as (pre & post & Hsplit & Hpre & Hd).
    rewrite (default_last_computed _ pre post d Hsplit Hpre Hd), Hsplit.
    apply Permutation_map. by rewrite (Permutation_app_comm post [d]).
  - intros Hfew. rewrite bool_decide_eq_false_2 by lia. done.
Qed.

(** X7. The computed pending-inbound list is the inbound list with at most
    one position taken out: it is a sublist of the inbound edges, exactly one
    shorter when the triggering edge object is among them and as long
    otherwise, and every inbound edge other than the trigger is still in
    it. *)
Theorem getPendingInbound_removes_at_most_one c flows :
  pendingInbound c = None →
  inbound c = Some flows →
  let removed :=
    match inboundFlow c with
    | Some trigger => if decide (trigger ∈ flows) then 1%nat else 0%nat
    | None => 0%nat
    end in
  (getPendingInbound c).1 `sublist_of` slice flows
  ∧ (length (getPendingInbound c).1 + removed = length flows)%nat
  ∧ ∀ f, f ∈ flows → inboundFlow c ≠ Some f → Some f ∈ (getPendingInbound c).1.
Proof.
  intros Hunset Hflows removed. subst removed.
  destruct (inboundFlow c) as [trigger|] eqn:Htrigger.
  - rewrite (getPendingInbound_computed c flows trigger) by done.
    destruct (decide (trigger ∈ flows)) as [Hin|Hnot].
    + destruct (first_occurrence _ _ Hin) as (pre & post & -> & Hpre).
      rewrite (indexOf_first _ _ _ Hpre).
      assert ((-1 <? Z.of_nat (length pre)) = true) as ->
        by (apply Z.ltb_lt; lia).
      rewrite slice_app. change (slice (trigger :: post))
        with (Some trigger :: slice post).
      rewrite <- (length_slice pre), splice1_at.
      split; [|split].
      * apply sublist_app; [done|]. by apply sublist_cons.
      * rewrite !length_app, !length_slice. simpl. lia.
      * intros f Hf Hne. rewrite <- slice_app. apply list_elem_of_fmap.
        exists f. split; [done|].
        apply elem_of_app in Hf as [Hf|Hf]; [set_solver|].
        apply elem_of_cons in Hf as [->|Hf]; [done|set_solver].
    + rewrite (indexOf_absent _ _ Hnot). simpl.
      split; [done|]. split; [rewrite length_slice; lia|].
      intros f Hf _. apply list_elem_of_fmap. by exists f.
  - unfold getPendingInbound. rewrite Hunset, Hflows, Htrigger.
    destruct flows as [|first rest]; simpl.
    + split; [done|]. split; [done|]. intros f Hf. by apply elem_of_nil in Hf.
    + split; [done|]. split; [rewrite length_slice; simpl; lia|].
      intros f Hf _. change (Some first :: slice rest) with (slice (first :: rest)).
      apply list_elem_of_fmap. by exists f.
Qed.

(** *** The snapshot *)

Lemma flow_ids_throws (pending : FlowArray) :
  flow_ids pending = Throw TypeError ↔ None ∈ pending.
Proof.
  split.
  - intros Hthrow. destruct (decide (None ∈ pending)) as [|Hnot]; [done|].
    destruct (defined_is_slice _ Hnot) as [flows ->].
    by rewrite flow_ids_slice in Hthrow.
  - intros Hin. unfold flow_ids.
    assert (mapM (λ f : option SequenceFlow, flow_id <$> f) pending = None)
      as ->; [|done].
    induction pending as [|[f|] rest IH]; simpl.
    + by apply elem_of_nil in Hin.
    + apply elem_of_cons in Hin as [Heq|Hin]; [done|]. by rewrite (IH Hin).
    + done.
Qed.

(** The result of [getState] read off the context it was called on: [base]
    is the activity's own state with the form written into it. *)
Lemma getState_shape override c w :
  ∃ base,
    (getState Form override c w).1.1 =
      if pendingFork c
      then match flow_ids (getPendingOutbound c).1 with
           | Normal ids =>
               Normal (assign
                         (assign (obj_set base "pendingOutbound" (VArr ids))
                            override)
                         (savedState c))
           | Throw e => Throw e
           end
      else Normal (assign (assign base override) (savedState c)).
Proof.
  unfold getState. run_world.
  destruct (own_state (activity c) w) as [state0 w1].
  assert (∀ base c1 w2,
            activity c1 = activity c → pendingOutbound c1 = pendingOutbound c →
            savedState c1 = savedState c →
            ((if pendingFork c1
              then let '(pending, c2) := getPendingOutbound c1 in
                   match flow_ids pending with
                   | Normal ids =>
                       λ w0, (Normal
                                (assign
                                   (assign
                                      (obj_set base "pendingOutbound"
                                         (VArr ids)) override)
                                   (savedState c2)), c2, w0)
                   | Throw e => λ w0, (Throw e, c2, w0)
                   end
              else λ w0, (Normal (assign (assign base override)
                                    (savedState c1)), c1, w0)) w2).1.1
            = if pendingFork c
              then match flow_ids (getPendingOutbound c).1 with
                   | Normal ids =>
                       Normal (assign
                                 (assign
                                    (obj_set base "pendingOutbound"
                                       (VArr ids)) override)
                                 (savedState c))
                   | Throw e => Throw e
                   end
              else Normal (assign (assign base override) (savedState c)))
    as Htail.
  { intros base c1 w2 Hact Hpend Hsaved.
    assert (pendingFork c1 = pendingFork c) as ->
      by (unfold pendingFork, outbound; by rewrite Hact).
    destruct (pendingFork c); [|by rewrite Hsaved].
    rewrite <- (getPendingOutbound_depends c1 c Hact Hpend).
    pose proof (getPendingOutbound_keeps_savedState c1) as Hkeep.
    destruct (getPendingOutbound c1) as [pending c2]. simpl in *.
    destruct (flow_ids pending); [|done]. simpl. by rewrite Hkeep, Hsaved. }
  destruct (act_form (activity c)) as [formData|].
  - pose proof (getForm_keeps_closure Form formData c w1)
      as (_ & Hact & _ & _ & _ & _ & _ & _ & Hpend & Hsaved & _).
    destruct (getForm Form formData c w1) as [[f c1] w2].
    exists (obj_set state0 "form" f). by apply Htail.
  - exists state0. by apply Htail.
Qed.

(** X8. [getState] throws exactly when the activity has more than one
    outbound edge and the pending-outbound list holds [undefined]; on an
    activity with at most one outbound edge it returns whatever the pending
    list holds. *)
Theorem getState_throws_iff override c w :
  (getState Form override c w).1.1 = Throw TypeError
  ↔ pendingFork c = true
    ∧ ∃ cached, pendingOutbound c = Some cached ∧ None ∈ cached.
Proof.
  destruct (getState_shape override c w) as [base ->].
  split.
  - destruct (pendingFork c); [|done]. intros Hthrow. split; [done|].
    assert (None ∈ (getPendingOutbound c).1) as Hin.
    { apply flow_ids_throws. by destruct (flow_ids _) as [|[]]. }
    destruct (pendingOutbound c) as [cached|] eqn:Hcached.
    + exists cached. split; [done|].
      unfold getPendingOutbound in Hin. by rewrite Hcached in Hin.
    + exfalso. refine (getPendingOutbound_defined c _ Hin).
      rewrite Hcached. by intros ? [=].
  - intros (-> & cached & Hcached & Hin).
    unfold getPendingOutbound. rewrite Hcached. simpl.
    apply flow_ids_throws in Hin. by rewrite Hin.
Qed.

(** X9. The snapshot records pending outbound edges only: [getState] never
    writes [pendingInbound].  When neither the activity's own state nor the
    override nor the saved state has that key, the snapshot has none, and
    [applyState] of the snapshot leaves the pending-inbound list of any
    context as it finds it. *)
Theorem snapshot_leaves_pendingInbound override c w :
  (∀ cached, pendingOutbound c = Some cached → None ∉ cached) →
  obj_props (own_state (activity c) w).1 !! "pendingInbound" = None →
  props_of override !! "pendingInbound" = None →
  props_of (savedState c) !! "pendingInbound" = None →
  ∃ snapshot,
    (getState Form override c w).1.1 = Normal snapshot
    ∧ obj_props snapshot !! "pendingInbound" = None
    ∧ ∀ target : ExecutionContext Env,
        pendingInbound (applyState (obj_value snapshot) target).2
        = pendingInbound target.
Proof.
  intros Hdefined Hown Hoverride Hsaved.
  destruct (getState_normal Form override c w Hdefined)
    as (flows & _ & snapshot & Hsnapshot & _ & Hprops).
  exists snapshot. split; [done|].
  assert (obj_props snapshot !! "pendingInbound" = None) as Hnone.
  { rewrite Hprops. repeat (apply lookup_union_None; split); try done.
    - by destruct (pendingFork c).
    - by destruct (act_form (activity c)). }
  split; [done|]. intros target.
  unfold applyState, obj_value, get_prop. rewrite Hnone. simpl.
  destruct (truthy _); [|done]. by destruct (restore _ _).
Qed.

(** X10. A context's pending-outbound list holds outbound edges of its
    activity and nothing else when the context is constructed, and no method
    but an [applyState] with an identifier of no outbound edge ends that; as
    long as it holds, [getState] returns normally. *)
Theorem pending_live_invariant :
  (∀ a msg env inb root w, pending_live (execution a msg env inb root w).1)
  ∧ ∀ c, pending_live c →
      (∀ loopMessage w, pending_live (getIteration loopMessage c w).1)
      ∧ (∀ saved, pending_live (setState saved c))
      ∧ (∀ data, pending_live (setResult data c))
      ∧ pending_live (stop c)
      ∧ pending_live (getPendingInbound c).2
      ∧ pending_live (getPendingOutbound c).2
      ∧ (∀ w, pending_live (getInput c w).1.2)
      ∧ (∀ w, pending_live (getOutput c w).1.2)
      ∧ (∀ cb w, pending_live (postpone Form cb c w).1)
      ∧ (∀ override w, pending_live (getState Form override c w).1.2)
      ∧ (∀ state,
           (∀ items stateFlowId,
               get_prop state "pendingOutbound" = VArr items →
               stateFlowId ∈ items →
               ∃ f, f ∈ outbound c ∧ VStr (flow_id f) = stateFlowId) →
           pending_live (applyState state c).2)
      ∧ ∀ override w, ∃ snapshot,
          (getState Form override c w).1.1 = Normal snapshot.
Proof.
  split; [apply execution_live|]. intros c Hlive.
  split; [intros; apply execution_live|].
  do 3 (split; [done|]).
  split; [by apply getPendingInbound_stays_live|].
  split; [by apply getPendingOutbound_stays_live|].
  split; [intros; by apply getInput_stays_live|].
  split; [intros; by apply getOutput_stays_live|].
  split; [intros; by apply postpone_stays_live|].
  split; [intros; by apply getState_stays_live|].
  split; [intros; by apply applyState_stays_live|].
  intros override w.
  assert (∀ cached, pendingOutbound c = Some cached → None ∉ cached)
    as Hdefined.
  { intros cached Hc Hnone. by apply (Hlive cached Hc), slice_defined in Hnone. }
  destruct (getState_normal Form override c w Hdefined)
    as (_ & _ & snapshot & Hsnapshot & _).
  by exists snapshot.
Qed.

(** *** Output resolution *)

Lemma output_loop_untouched c scope parms (result : Obj) k :
  k ∉ parm_name <$> parms →
  obj_props (fold_left (output_step c scope) parms result) !! k
  = obj_props result !! k.
Proof.
  revert result. induction parms as [|parm parms IH]; intros result Hk; [done|].
  simpl in *. apply not_elem_of_cons in Hk as [Hne Hrest].
  rewrite IH by done. simpl. by rewrite lookup_insert_ne.
Qed.

Lemma output_loop_last c scope pre parm post (result : Obj) :
  parm_name parm ∉ parm_name <$> post →
  obj_props (fold_left (output_step c scope) (pre ++ parm :: post) result)
    !! parm_name parm
  = Some (getOutputValue parm (resultData c) scope).
Proof.
  intros Hlast. rewrite fold_left_app. simpl.
  rewrite output_loop_untouched by done.
  simpl. apply lookup_insert_eq.
Qed.

(** X11. When output parameters share a name, the one declared last gives
    the value of that name in what [getOutput()] returns; the earlier ones
    leave no trace. *)
Theorem getOutput_last_declaration_wins c w pre parm post :
  outputParameters c = Some (pre ++ parm :: post) →
  parm_name parm ∉ parm_name <$> post →
  let w2 := (new_object (new_object w).2).2 in
  let variablesAndServices := getVariablesAndServices (environment c) None w2 in
  let input := (getInput c variablesAndServices.2).1.1 in
  ∃ ref props scope,
    (getOutput c w).1.1 = VObj ref props
    ∧ obj_props scope = obj_props input ∪ obj_props variablesAndServices.1
    ∧ props !! parm_name parm
      = Some (getOutputValue parm (resultData c) scope).
Proof.
  intros Hparms Hlast w2 variablesAndServices input.
  pose proof (getOutput_declared c _ w Hparms) as Hout. simpl in Hout.
  fold w2 variablesAndServices in Hout.
  set (c1 := (getInput c variablesAndServices.2).1.2) in *.
  fold input in Hout.
  set (scope := mkObj (S (next_ref w))
                  (obj_props input ∪ (obj_props variablesAndServices.1 ∪ ∅)))
    in *.
  set (final := fold_left (output_step c1 scope) (pre ++ parm :: post)
                  (mkObj (next_ref w) ∅)) in *.
  exists (obj_ref final), (obj_props final), scope.
  split; [exact Hout|].
  split; [subst scope; simpl; by rewrite (right_id_L ∅ (∪))|].
  subst final. rewrite output_loop_last by done.
  subst c1. by rewrite getInput_keeps_resultData.
Qed.

Lemma getInput_outside_memo c w :
  same_outside_memo c (getInput c w).1.2
  ∧ pendingInbound (getInput c w).1.2 = pendingInbound c
  ∧ pendingOutbound (getInput c w).1.2 = pendingOutbound c.
Proof.
  unfold same_outside_memo, getInput. run_world.
  destruct (inputResult c); [done|].
  destruct (inputParameters c) as [parms|].
  - by destruct (fold_left (input_step c) parms new_object w).
  - by destruct (getVariablesAndServices (environment c) None w).
Qed.

Lemma getInput_memo c w :
  is_Some (inputParameters c) →
  ∀ w', getInput (getInput c w).1.2 w'
        = (((getInput c w).1.1, (getInput c w).1.2), w').
Proof.
  intros [parms Hparms] w'. unfold getInput. run_world.
  destruct (inputResult c) as [o|] eqn:Hmemo; [simpl; by rewrite Hmemo|].
  rewrite Hparms.
  by destruct (fold_left (input_step c) parms new_object w).
Qed.

(** X12. With output parameters declared, [getOutput()] changes nothing on
    the context but the memoized input; when input parameters are declared
    too, the input it overlaid on the scope is the very object every later
    [getInput()] returns. *)
Theorem getOutput_memoizes_input c w parms :
  outputParameters c = Some parms →
  let w2 := (new_object (new_object w).2).2 in
  let variablesAndServices := getVariablesAndServices (environment c) None w2 in
  let resolved := getInput c variablesAndServices.2 in
  let c' := (getOutput c w).1.2 in
  c' = resolved.1.2
  ∧ same_outside_memo c c'
  ∧ pendingInbound c' = pendingInbound c
  ∧ pendingOutbound c' = pendingOutbound c
  ∧ (is_Some (inputParameters c) →
     inputResult c' = Some resolved.1.1
     ∧ ∀ w', getInput c' w' = ((resolved.1.1, c'), w')).
Proof.
  intros Hparms w2 variablesAndServices resolved c'.
  assert (c' = resolved.1.2) as ->.
  { subst c' resolved variablesAndServices w2.
    unfold getOutput. rewrite Hparms. run_world. simpl.
    destruct (getVariablesAndServices _ _ _) as [vs w3]; simpl.
    by destruct (getInput c w3) as [[input c1] w4]. }
  split; [done|].
  destruct (getInput_outside_memo c variablesAndServices.2)
    as (Hsame & Hin & Hout).
  do 3 (split; [done|]).
  intros Hdeclared.
  pose proof (getInput_memo c variablesAndServices.2 Hdeclared) as Hmemo.
  fold resolved in Hmemo. split; [|exact Hmemo].
  specialize (Hmemo w). unfold getInput in Hmemo at 1.
  destruct (inputResult resolved.1.2) as [o|] eqn:Hresult.
  - apply (f_equal (λ r, r.1.1)) in Hmemo. simpl in Hmemo. by rewrite Hmemo.
  - exfalso. subst resolved. unfold getInput in Hresult.
    destruct Hdeclared as [ips Hips]. revert Hresult. run_world.
    destruct (inputResult c) as [o|] eqn:Hc; [simpl; by rewrite Hc|].
    rewrite Hips.
    by destruct (fold_left (input_step c) ips new_object variablesAndServices.2).
Qed.

(** The loop of [getContextOutput]: the object keeps its identity, gains the
    declared names and keeps every other entry. *)
Lemma context_output_loop c parms (result : Obj) :
  let final :=
    fold_left
      (λ result parm,
         obj_set result (parm_name parm)
           (getOutputValue parm (resultData c) result))
      parms result in
  obj_ref final = obj_ref result
  ∧ dom (obj_props final)
    = (list_to_set (parm_name <$> parms) : gset string) ∪ dom (obj_props result)
  ∧ ∀ k, k ∉ parm_name <$> parms →
         obj_props final !! k = obj_props result !! k.
Proof.
  revert result. induction parms as [|parm parms IH]; intros result; simpl.
  - split; [done|]. split; [set_solver|done].
  - destruct (IH (obj_set result (parm_name parm)
                    (getOutputValue parm (resultData c) result)))
      as (Href & Hdom & Hkeep).
    split; [done|]. split.
    + rewrite Hdom. simpl. rewrite dom_insert_L. set_solver.
    + intros k Hk. apply not_elem_of_cons in Hk as [Hne Hrest].
      rewrite Hkeep by done. simpl. by rewrite lookup_insert_ne.
Qed.

(** X13. [getContextInput()] is the scope the environment builds with the
    resolved input handed in as extra properties.  [getContextOutput()]
    returns that same scope object with the declared output names written
    over it and every other entry left as it was; each output value is
    resolved against the object as built so far, so the last parameter sees
    what those before it wrote; without output parameters nothing is
    written. *)
Theorem getContextOutput_overlays c w :
  let resolved := getInput c w in
  let scope :=
    (getVariablesAndServices (environment c) (Some resolved.1.1) resolved.2).1 in
  let out := (getContextOutput c w).1.1 in
  let parms := default [] (outputParameters c) in
  (getContextInput c w).1.1 = scope
  ∧ obj_ref out = obj_ref scope
  ∧ dom (obj_props out)
    = list_to_set (parm_name <$> parms) ∪ dom (obj_props scope)
  ∧ (∀ k, k ∉ parm_name <$> parms → obj_props out !! k = obj_props scope !! k)
  ∧ (outputParameters c = None → out = scope)
  ∧ ∀ pre parm,
      parms = pre ++ [parm] →
      ∃ before,
        obj_ref before = obj_ref scope
        ∧ (∀ k, k ∉ parm_name <$> pre →
                obj_props before !! k = obj_props scope !! k)
        ∧ dom (obj_props before)
          = list_to_set (parm_name <$> pre) ∪ dom (obj_props scope)
        ∧ obj_props out !! parm_name parm
          = Some (getOutputValue parm (resultData c) before).
Proof.
  intros resolved scope out parms.
  pose proof (getInput_keeps_closure c w)
    as (_ & Hact & _ & Henv & _ & _ & _ & _ & _ & _ & Hdata).
  assert ((getContextInput c w).1 = (scope, resolved.1.2)) as Hinput.
  { subst scope resolved. unfold getContextInput. run_world.
    destruct (getInput c w) as [[input c1] w1]. simpl in *. rewrite Henv.
    by destruct (getVariablesAndServices (environment c) (Some input) w1). }
  split; [by rewrite Hinput|].
  assert (out
          = fold_left
              (λ result parm,
                 obj_set result (parm_name parm)
                   (getOutputValue parm (resultData c) result))
              parms scope) as Hout.
  { subst out parms. unfold getContextOutput. run_world.
    destruct (getContextInput c w) as [[result c1] w1].
    simpl in Hinput. injection Hinput as -> ->. subst scope resolved.
    assert (outputParameters (getInput c w).1.2 = outputParameters c) as ->
      by (unfold outputParameters; by rewrite Hact).
    rewrite Hdata. by destruct (outputParameters c). }
  destruct (context_output_loop c parms scope) as (Href & Hdom & Hkeep).
  rewrite <- Hout in Href, Hdom, Hkeep.
  do 3 (split; [done|]).
  split; [intros Hnone; subst parms; by rewrite Hout, Hnone|].
  intros pre parm Hsplit.
  destruct (context_output_loop c pre scope) as (Href' & Hdom' & Hkeep').
  eexists. split; [exact Href'|]. split; [exact Hkeep'|].
  split; [exact Hdom'|].
  rewrite Hout, Hsplit, fold_left_app. simpl. apply lookup_insert_eq.
Qed.

(** *** What the methods leave alone *)

Lemma same_outside_memo_refl c : same_outside_memo c c.
Proof. by repeat split. Qed.

Lemma same_outside_memo_trans c1 c2 c3 :
  same_outside_memo c1 c2 → same_outside_memo c2 c3 → same_outside_memo c1 c3.
Proof.
  unfold same_outside_memo. intros H12 H23.
  destruct H12 as (? & ? & ? & ? & ? & ? & ? & ? & ? & ? & ? & ? & ?).
  destruct H23 as (? & ? & ? & ? & ? & ? & ? & ? & ? & ? & ? & ? & ?).
  repeat split; congruence.
Qed.

Lemma getForm_outside_memo formData c w :
  same_outside_memo c (getForm Form formData c w).1.2
  ∧ pendingInbound (getForm Form formData c w).1.2 = pendingInbound c
  ∧ pendingOutbound (getForm Form formData c w).1.2 = pendingOutbound c.
Proof.
  unfold getForm. run_world.
  destruct (Form_new Form formData w) as [formInstance w1].
  pose proof (getInput_outside_memo c w1) as Hkeep.
  destruct (getInput c w1) as [[input c1] w2].
  by destruct (Form_init Form formInstance input (environment c1) w2).
Qed.

(** X14. [getState] reads the context and memoizes: apart from the input it
    resolves for a declared form and the pending-outbound list it computes
    for an activity with more than one outbound edge, the context after the
    call is the context before it; the saved state is still there for the
    next snapshot, and the pending-inbound list is not computed. *)
Theorem getState_only_memoizes override c w :
  let c' := (getState Form override c w).1.2 in
  same_outside_memo c c'
  ∧ pendingInbound c' = pendingInbound c
  ∧ pendingOutbound c'
    = (if pendingFork c then Some (getPendingOutbound c).1
       else pendingOutbound c)
  ∧ (act_form (activity c) = None → inputResult c' = inputResult c).
Proof.
  intros c'. subst c'. unfold getState. run_world.
  destruct (own_state (activity c) w) as [state0 w1].
  assert (∀ (base : Obj) c1 w2,
            same_outside_memo c c1 →
            pendingInbound c1 = pendingInbound c →
            pendingOutbound c1 = pendingOutbound c →
            let c' :=
              ((if pendingFork c1
                then let '(pending, c2) := getPendingOutbound c1 in
                     match flow_ids pending with
                     | Normal ids =>
                         λ w0, (Normal
                                  (assign
                                     (assign
                                        (obj_set base "pendingOutbound"
                                           (VArr ids)) override)
                                     (savedState c2)), c2, w0)
                     | Throw e => λ w0, (Throw e, c2, w0)
                     end
                else λ w0, (Normal (assign (assign base override)
                                      (savedState c1)), c1, w0)) w2).1.2 in
            same_outside_memo c c'
            ∧ pendingInbound c' = pendingInbound c
            ∧ pendingOutbound c'
              = (if pendingFork c then Some (getPendingOutbound c).1
                 else pendingOutbound c)
            ∧ inputResult c' = inputResult c1) as Htail.
  { intros base c1 w2 Hsame Hin Hout.
    assert (activity c1 = activity c) as Hact by apply Hsame.
    assert (pendingFork c1 = pendingFork c) as ->
      by (unfold pendingFork, outbound; by rewrite Hact).
    destruct (pendingFork c); [|done].
    rewrite <- (getPendingOutbound_depends c1 c Hact Hout).
    pose proof (getPendingOutbound_frame c1) as Hset.
    destruct (getPendingOutbound c1) as [pending c2] eqn:Hpending.
    simpl in Hset.
    assert (pendingOutbound c2 = Some pending) as Hcached.
    { unfold getPendingOutbound in Hpending.
      destruct (pendingOutbound c1) as [cached|] eqn:Hc1.
      - by injection Hpending as <- <-.
      - by injection Hpending as <- <-. }
    assert (same_outside_memo c1 c2 ∧ pendingInbound c2 = pendingInbound c1
            ∧ inputResult c2 = inputResult c1) as (Hsame2 & Hin2 & Hmemo2).
    { rewrite <- Hset. by destruct c1. }
    assert (same_outside_memo c c2 ∧ pendingInbound c2 = pendingInbound c
            ∧ pendingOutbound c2 = Some pending
            ∧ inputResult c2 = inputResult c1) as Hgoal.
    { split; [by apply (same_outside_memo_trans c c1 c2)|].
      split; [congruence|]. done. }
    by destruct (flow_ids pending). }
  destruct (act_form (activity c)) as [formData|].
  - destruct (getForm_outside_memo formData c w1) as (Hsame & Hin & Hout).
    destruct (getForm Form formData c w1) as [[f c1] w2].
    destruct (Htail (obj_set state0 "form" f) c1 w2 Hsame Hin Hout)
      as (? & ? & ? & _).
    done.
  - destruct (Htail state0 c w1 (same_outside_memo_refl c) eq_refl eq_refl)
      as (? & ? & ? & ?).
    done.
Qed.

Lemma getOutput_keeps_stopped c w : stopped (getOutput c w).1.2 = stopped c.
Proof.
  unfold getOutput. destruct (outputParameters c) as [parms|]; [|done].
  run_world. simpl.
  destruct (getVariablesAndServices _ _ _) as [vs w3].
  pose proof (getInput_outside_memo c w3) as [Hsame _].
  destruct (getInput c w3) as [[input c1] w4]. apply Hsame.
Qed.

Lemma getContextInput_keeps_stopped c w :
  stopped (getContextInput c w).1.2 = stopped c.
Proof.
  unfold getContextInput. run_world.
  pose proof (getInput_outside_memo c w) as [Hsame _].
  destruct (getInput c w) as [[input c1] w1].
  destruct (getVariablesAndServices (environment c1) (Some input) w1).
  apply Hsame.
Qed.

Lemma getContextOutput_keeps_stopped c w :
  stopped (getContextOutput c w).1.2 = stopped c.
Proof.
  unfold getContextOutput. run_world.
  pose proof (getContextInput_keeps_stopped c w) as Hkeep.
  destruct (getContextInput c w) as [[result c1] w1].
  by destruct (outputParameters c1).
Qed.

Lemma postpone_keeps_stopped (cb : Callback) c w :
  stopped (postpone Form cb c w).1 = stopped c.
Proof.
  unfold postpone. run_world.
  destruct (act_form (activity c)) as [formData|]; [|done].
  destruct (getForm_outside_memo formData c w) as [Hsame _].
  destruct (getForm Form formData c w) as [[f c1] w1]. apply Hsame.
Qed.

Lemma getState_outside_memo override c w :
  same_outside_memo c (getState Form override c w).1.2.
Proof.
  unfold getState. run_world.
  destruct (own_state (activity c) w) as [state0 w1].
  assert (∀ (base : Obj) c1 w2,
            same_outside_memo c1
              ((if pendingFork c1
                then let '(pending, c2) := getPendingOutbound c1 in
                     match flow_ids pending with
                     | Normal ids =>
                         λ w0, (Normal
                                  (assign
                                     (assign
                                        (obj_set base "pendingOutbound"
                                           (VArr ids)) override)
                                     (savedState c2)), c2, w0)
                     | Throw e => λ w0, (Throw e, c2, w0)
                     end
                else λ w0, (Normal (assign (assign base override)
                                      (savedState c1)), c1, w0)) w2).1.2)
    as Htail.
  { intros base c1 w2.
    destruct (pendingFork c1); [|apply same_outside_memo_refl].
    pose proof (getPendingOutbound_frame c1) as Hset.
    destruct (getPendingOutbound c1) as [pending c2]. simpl in Hset.
    assert (same_outside_memo c1 c2) by (rewrite <- Hset; by destruct c1).
    by destruct (flow_ids pending). }
  destruct (act_form (activity c)) as [formData|]; [|apply Htail].
  destruct (getForm_outside_memo formData c w1) as [Hsame _].
  destruct (getForm Form formData c w1) as [[f c1] w2].
  eapply same_outside_memo_trans; [exact Hsame|apply Htail].
Qed.

(** X15. The stop flag is set by [stop()] and by nothing else, and no method
    clears it: a constructed context and every iteration start unstopped,
    and whatever is called on a context afterwards, [isStopped()] answers
    what it answered before. *)
Theorem stop_flag_is_kept c :
  isStopped (stop c) = true
  ∧ (∀ a msg env inb root w,
       isStopped (execution a msg env inb root w).1 = false)
  ∧ (∀ loopMessage w, isStopped (getIteration loopMessage (stop c) w).1 = false)
  ∧ (∀ state, isStopped (applyState state c).2 = isStopped c)
  ∧ (∀ saved, isStopped (setState saved c) = isStopped c)
  ∧ (∀ data, isStopped (setResult data c) = isStopped c)
  ∧ isStopped (getPendingInbound c).2 = isStopped c
  ∧ isStopped (getPendingOutbound c).2 = isStopped c
  ∧ (∀ w, isStopped (getInput c w).1.2 = isStopped c)
  ∧ (∀ w, isStopped (getOutput c w).1.2 = isStopped c)
  ∧ (∀ w, isStopped (getContextInput c w).1.2 = isStopped c)
  ∧ (∀ w, isStopped (getContextOutput c w).1.2 = isStopped c)
  ∧ (∀ cb w, isStopped (postpone Form cb c w).1 = isStopped c)
  ∧ (∀ override w, isStopped (getState Form override c w).1.2 = isStopped c).
Proof.
  assert (∀ a msg env inb root w,
            isStopped (execution a msg env inb root w).1 = false) as Hfresh.
  { intros. by destruct (execution_fresh a msg env inb root w) as [name ->]. }
  unfold isStopped.
  split; [done|]. split; [exact Hfresh|].
  split; [intros; apply Hfresh|].
  split; [intros; apply applyState_outside_memo|].
  do 2 (split; [done|]).
  split; [rewrite <- getPendingInbound_frame; by destruct c|].
  split; [rewrite <- getPendingOutbound_frame; by destruct c|].
  split; [intros; apply getInput_outside_memo|].
  split; [intros; apply getOutput_keeps_stopped|].
  split; [intros; apply getContextInput_keeps_stopped|].
  split; [intros; apply getContextOutput_keeps_stopped|].
  split; [intros; apply postpone_keeps_stopped|].
  intros. apply getState_outside_memo.
Qed.

(** *** Iterations *)


(** *** Completion handles *)

(** X17. Nothing guards the completion callback: every call of a handle
    reaches it, so a [signal] followed by an [error] delivers both, and a
    handle called without arguments passes [undefined] where its argument
    would be.  A second [postpone] replaces the three handles, which from
    then on reach the second callback and not the first. *)
Theorem completion_is_not_guarded (first second : Callback) c w w1 :
  let c1 := (postpone Form first c w).1 in
  let c2 := (postpone Form second c1 w1).1 in
  ∃ on_error on_signal on_complete on_error2 on_signal2 on_complete2,
    error c1 = Some on_error ∧ signal c1 = Some on_signal
    ∧ complete c1 = Some on_complete
    ∧ error c2 = Some on_error2 ∧ signal c2 = Some on_signal2
    ∧ complete c2 = Some on_complete2
    ∧ (∀ err input w0,
         on_error [err] (on_signal [input] w0)
         = first [err] (first [VNull; input] w0))
    ∧ (∀ values w0,
         on_complete values (on_complete values w0)
         = first (VNull :: values) (first (VNull :: values) w0))
    ∧ (∀ w0, on_error [] w0 = first [VUndefined] w0)
    ∧ (∀ w0, on_signal [] w0 = first [VNull; VUndefined] w0)
    ∧ (∀ w0, on_complete [] w0 = first [VNull] w0)
    ∧ (∀ args w0, on_error2 args w0 = second [arg 0 args] w0)
    ∧ (∀ args w0, on_signal2 args w0 = second [VNull; arg 0 args] w0)
    ∧ (∀ args w0, on_complete2 args w0 = second (VNull :: args) w0)
    ∧ ∀ name err input w0,
        first = recorder name →
        trace (on_error [err] (on_signal [input] w0))
        = trace w0 ++ [Called name [VNull; input]; Called name [err]].
Proof.
  intros c1 c2.
  assert (∀ (cb : Callback) c0 w0,
            error (postpone Form cb c0 w0).1
            = Some (λ args, cb [arg 0 args])
            ∧ signal (postpone Form cb c0 w0).1
              = Some (λ args, cb [VNull; arg 0 args])
            ∧ complete (postpone Form cb c0 w0).1
              = Some (λ args, cb (VNull :: args))) as Hset.
  { intros cb c0 w0. unfold postpone. run_world.
    destruct (act_form (activity c0)) as [formData|]; [|done].
    by destruct (getForm Form formData c0 w0) as [[f c'] w']. }
  destruct (Hset first c w) as (He & Hs & Hk).
  destruct (Hset second c1 w1) as (He2 & Hs2 & Hk2).
  eexists _, _, _, _, _, _.
  do 6 (split; [eassumption|]).
  do 8 (split; [done|]).
  intros name err input w0 ->. simpl.
  by rewrite <- app_assoc.
Qed.

(** *** Declared but empty, and the form *)

(** X19. A declared but empty parameter list is a declaration: with
    [io.input = []] the input is a new empty object, not the environment's
    scope, and it is memoized; with [io.output = []] the output is a new
    empty object whatever the raw result is. *)
Theorem empty_declarations_hide c w :
  (inputParameters c = Some [] → inputResult c = None →
   (getInput c w).1.1 = mkObj (next_ref w) ∅
   ∧ inputResult (getInput c w).1.2 = Some (mkObj (next_ref w) ∅)
   ∧ (getInput c w).2 = (new_object w).2)
  ∧ (outputParameters c = Some [] →
     ∀ data, (getOutput (setResult data c) w).1.1 = VObj (next_ref w) ∅).
Proof.
  split.
  - intros Hparms Hunset. unfold getInput. by rewrite Hunset, Hparms.
  - intros Hparms data. unfold getOutput.
    assert (outputParameters (setResult data c) = Some []) as -> by done.
    run_world. simpl.
    destruct (getVariablesAndServices _ _ _) as [vs w3].
    by destruct (getInput (setResult data c) w3) as [[input c1] w4].
Qed.

Lemma getInput_depends c c' w :
  inputResult c' = inputResult c → activity c' = activity c →
  environment c' = environment c → message c' = message c →
  (getInput c' w).1.1 = (getInput c w).1.1.
Proof.
  intros Hmemo Hact Henv Hmsg. unfold getInput, inputParameters.
  rewrite Hmemo, Hact, Henv. destruct (inputResult c); [done|].
  destruct (act_io (activity c) ≫= io_input) as [parms|]; run_world.
  - assert (∀ acc, fold_left (input_step c') parms acc
                   = fold_left (input_step c) parms acc) as ->.
    { induction parms as [|parm parms IH]; intros acc; [done|]. simpl.
      rewrite IH. f_equal. unfold input_step. by rewrite Henv, Hmsg. }
    by destruct (fold_left (input_step c) parms new_object w).
  - by destruct (getVariablesAndServices (environment c) None w).
Qed.

(** X20. Without a declared form [postpone] touches neither the world nor
    anything on the context but the three handles.  With a declared form it
    makes a new form instance, resolves the input and binds the instance to
    that input and the environment, in this order, and attaches the bound
    instance; with input parameters declared the input the form was bound to
    is the object later calls of [getInput()] return. *)
Theorem postpone_binds_form (cb : Callback) c w :
  match act_form (activity c) with
  | None =>
      (postpone Form cb c w).2 = w
      ∧ form (postpone Form cb c w).1 = form c
      ∧ inputResult (postpone Form cb c w).1 = inputResult c
  | Some formData =>
      let made := Form_new Form formData w in
      let resolved := getInput c made.2 in
      let bound :=
        Form_init Form made.1 resolved.1.1 (environment c) resolved.2 in
      form (postpone Form cb c w).1 = Some bound.1
      ∧ (postpone Form cb c w).2 = bound.2
      ∧ (is_Some (inputParameters c) →
         ∀ w', (getInput (postpone Form cb c w).1 w').1.1 = resolved.1.1)
  end.
Proof.
  unfold postpone, getForm. run_world.
  destruct (act_form (activity c)) as [formData|]; [|done].
  destruct (Form_new Form formData w) as [formInstance w1]. simpl.
  pose proof (getInput_keeps_closure c w1)
    as (_ & _ & _ & Henv & _).
  pose proof (getInput_memo c w1) as Hmemo.
  destruct (getInput c w1) as [[input c1] w2]. simpl in *. rewrite Henv.
  destruct (Form_init Form formInstance input (environment c) w2)
    as [bound w3].
  do 2 (split; [done|]).
  intros Hdeclared w'. specialize (Hmemo Hdeclared w').
  apply (f_equal (λ r, r.1.1)) in Hmemo. simpl in Hmemo. rewrite <- Hmemo.
  by apply getInput_depends.
Qed.

(** X21. The identifier of a context is the activity's identifier exactly
    when the message is no parallel-loop message.  A primitive ([undefined],
    [null], a boolean, a number, a string) never is one.  When the message
    is none, constructing the context draws no random value and leaves the
    world as it is. *)
Theorem identifier_is_base_iff a msg env inb root w :
  (id (execution a msg env inb root w).1 = act_id a
   ↔ parallel_loop msg = false)
  ∧ ((msg = VUndefined ∨ msg = VNull ∨ (∃ b, msg = VBool b)
      ∨ (∃ n, msg = VNum n) ∨ (∃ str, msg = VStr str)) →
     id (execution a msg env inb root w).1 = act_id a)
  ∧ (parallel_loop msg = false → (execution a msg env inb root w).2 = w).
Proof.
  split; [|split].
  - rewrite execution_id. destruct (parallel_loop msg); split; try done.
    intros Heq. by apply suffixed_differs in Heq.
  - rewrite execution_id.
    intros [->|[->|[[b ->]|[[n ->]|[str ->]]]]];
      unfold parallel_loop; simpl; by rewrite ?andb_false_r.
  - intros Hloop. unfold execution. run_world. by rewrite Hloop.
Qed.
End FurtherProperties.

(** *** Delegation *)

Section DelegationProperties.
Context {Env : Type} `{Environment Env} (Form : FormModule Env).
Context (delegates : Delegates Env).
Implicit Types (c : ExecutionContext Env) (w : World).

Lemma delegation_depends c c' :
  activity c' = activity c → environment c' = environment c →
  inboundFlow c' = inboundFlow c → rootFlow c' = rootFlow c →
  cancel delegates c' = cancel delegates c
  ∧ discard delegates c' = discard delegates c
  ∧ ∀ expression from,
      resolveExpression delegates expression from c'
      = resolveExpression delegates expression from c.
Proof.
  unfold cancel, discard, resolveExpression. by intros -> -> -> ->.
Qed.

Lemma delegation_outside_memo c c' :
  same_outside_memo c c' →
  cancel delegates c' = cancel delegates c
  ∧ discard delegates c' = discard delegates c
  ∧ ∀ expression from,
      resolveExpression delegates expression from c'
      = resolveExpression delegates expression from c.
Proof.
  intros (_ & Hact & _ & Henv & Hin & Hroot & _).
  by apply delegation_depends.
Qed.

(** X18. [cancel()] and [discard()] throw a [TypeError] exactly when the
    activity lacks the hook, and then nothing has happened.  On an iteration
    [discard()] hands the activity's hook the inbound flow and root flow the
    parent was constructed with, and [cancel()] and [discard()] are the
    parent's.  Restoring state, memoizing, postponing, snapshotting or
    stopping changes none of [cancel()], [discard()] and
    [resolveExpression()].  For a falsy scope ([undefined], [null], [false],
    [0], the empty string) [resolveExpression] evaluates in the
    environment: on an iteration, in the cloned one. *)
Theorem delegation_reads_construction_only c :
  (∀ w,
     ((cancel delegates c w).1 = Throw TypeError
      ↔ activity_cancel delegates (activity c) = None)
     ∧ ((discard delegates c w).1 = Throw TypeError
        ↔ activity_discard delegates (activity c) = None)
     ∧ ((cancel delegates c w).1 = Throw TypeError →
        (cancel delegates c w).2 = w)
     ∧ ((discard delegates c w).1 = Throw TypeError →
        (discard delegates c w).2 = w))
  ∧ (∀ loopMessage w,
       discard delegates (getIteration loopMessage c w).1
       = discard delegates c
       ∧ cancel delegates (getIteration loopMessage c w).1
         = cancel delegates c
       ∧ ∀ hook w1,
           activity_discard delegates (activity c) = Some hook →
           discard delegates (getIteration loopMessage c w).1 w1
           = (Normal (), hook (inboundFlow c) (rootFlow c) w1))
  ∧ (∀ c',
       c' ∈ [stop c; (getPendingInbound c).2; (getPendingOutbound c).2]
       ∨ (∃ state, c' = (applyState state c).2)
       ∨ (∃ saved, c' = setState saved c)
       ∨ (∃ data, c' = setResult data c)
       ∨ (∃ w, c' = (getInput c w).1.2)
       ∨ (∃ cb w, c' = (postpone Form cb c w).1)
       ∨ (∃ override w, c' = (getState Form override c w).1.2) →
       cancel delegates c' = cancel delegates c
       ∧ discard delegates c' = discard delegates c
       ∧ ∀ expression from,
           resolveExpression delegates expression from c'
           = resolveExpression delegates expression from c)
  ∧ (∀ expression from loopMessage w,
       from ∈ [VUndefined; VNull; VBool false; VNum 0; VStr ""] →
       resolveExpression delegates expression from
         (getIteration loopMessage c w).1
       = expressions delegates expression
           (inr (clone (environment c) loopMessage))).
Proof.
  split; [|split; [|split]].
  - intros w. unfold cancel, discard.
    destruct (activity_cancel delegates (activity c)),
      (activity_discard delegates (activity c)); simpl;
      repeat split; done.
  - intros loopMessage w. unfold getIteration, cancel, discard.
    destruct (execution_fresh (activity c) loopMessage
                (clone (environment c) loopMessage) (inboundFlow c)
                (rootFlow c) w) as [name ->].
    simpl. do 2 (split; [done|]). by intros hook w1 ->.
  - intros c' [Hin|[[state ->]|[[saved ->]|[[data ->]|[[w ->]|[(cb & w & ->)|
      (override & w & ->)]]]]]].
    + apply delegation_depends;
        repeat (apply elem_of_cons in Hin as [->|Hin]); try done;
        try (by apply elem_of_nil in Hin);
        try (rewrite <- getPendingInbound_frame; by destruct c);
        rewrite <- getPendingOutbound_frame; by destruct c.
    + apply delegation_outside_memo, applyState_outside_memo.
    + by apply delegation_depends.
    + by apply delegation_depends.
    + apply delegation_outside_memo, getInput_outside_memo.
    + unfold postpone. run_world.
      destruct (act_form (activity c)) as [formData|];
        [|by apply delegation_depends].
      destruct (getForm_outside_memo Form formData c w)
        as [(_ & Hact & _ & Henv & Hin & Hroot & _) _].
      destruct (getForm Form formData c w) as [[f c1] w1].
      by apply delegation_depends.
    + apply delegation_outside_memo, getState_outside_memo.
  - intros expression from loopMessage w Hfalsy.
    unfold resolveExpression, getIteration.
    destruct (execution_fresh (activity c) loopMessage
                (clone (environment c) loopMessage) (inboundFlow c)
                (rootFlow c) w) as [name ->].
    repeat (apply elem_of_cons in Hfalsy as [->|Hfalsy]); try done.
    by apply elem_of_nil in Hfalsy.
Qed.
End DelegationProperties.

(** ** The further properties at concrete graphs *)

(** A user task has no hooks, so cancelling it throws and records nothing;
    the gateway's iteration discards with the flows of its parent. *)
Lemma delegation_at_samples :
  let task := (execution plain_task VUndefined env0 None VNull world0).1 in
  let fork :=
    (execution gateway VUndefined env0 (Some flowA) (VStr "root") world0).1 in
  cancel recording_delegates task world0 = (Throw TypeError, world0)
  ∧ ∃ hook,
      activity_discard recording_delegates (activity fork) = Some hook
      ∧ (discard recording_delegates (getIteration loop_message fork world0).1
           world0).1 = Normal ()
      ∧ trace (discard recording_delegates
                 (getIteration loop_message fork world0).1 world0).2
        = [Called "discard" [VStr "A"; VStr "root"]].
Proof.
  intros task fork.
  destruct (delegation_reads_construction_only record_form recording_delegates
              task) as (Herror & _).
  destruct (Herror world0) as ((_ & Hmissing) & _ & Huntouched & _).
  specialize (Hmissing eq_refl). specialize (Huntouched Hmissing).
  split.
  - rewrite (surjective_pairing (cancel recording_delegates task world0)).
    by rewrite Hmissing, Huntouched.
  - destruct (delegation_reads_construction_only record_form
                recording_delegates fork) as (_ & Hiteration & _).
    destruct (Hiteration loop_message world0) as (_ & _ & Hdiscard).
    eexists. split; [reflexivity|].
    rewrite (Hdiscard _ world0 eq_refl). split; reflexivity.
Defined.

Lemma generateId_range_at_quarter :
  (0 <= random world_close_draws 0)%Q
  ∧ (random world_close_draws 0 <= 1 - (1 # 9007199254740992))%Q
  ∧ (generateId world_close_draws).1 = "3f0c9"
  ∧ 11000 ≤ next_rand world_close_draws ≤ 999998.
Proof.
  assert (0 <= random world_close_draws (random_calls world_close_draws))%Q
    as Hlow by (by vm_compute).
  assert (random world_close_draws (random_calls world_close_draws)
          <= 1 - (1 # 9007199254740992))%Q
    as Hhigh by (by vm_compute).
  destruct (generateId_range world_close_draws Hlow Hhigh)
    as (Hid & Hrange & _).
  split; [exact Hlow|]. split; [exact Hhigh|]. split; [|exact Hrange].
  etrans; [exact Hid|]. by vm_compute.
Defined.

(** An empty persisted inbound list and a persisted outbound order [B, A]. *)
Lemma gateway_restored_lists :
  let c := (execution gateway VUndefined env0 (Some flowA) VNull world0).1 in
  let state :=
    VObj 7 (<["pendingInbound" := VArr []]>
              {["pendingOutbound" := VArr [VStr "B"; VStr "A"]]}) in
  let c' := (applyState state c).2 in
  (getPendingInbound c).1 = slice [flowC]
  ∧ (getPendingInbound c').1 = []
  ∧ (getPendingOutbound c').1 = slice [flowB; flowA].
Proof.
  intros c state c'.
  destruct (restored_lists_are_returned state c [] [VStr "B"; VStr "A"]
              [flowA; flowC] eq_refl eq_refl eq_refl)
    as (_ & _ & Hout & Hin & _).
  split; [reflexivity|]. split; [exact (Hin eq_refl)|].
  etrans; [exact (f_equal fst Hout)|]. reflexivity.
Defined.

(** A task whose only outbound edge is the default edge. *)
Lemma lone_default_edge_stays :
  let c := (execution plain_task VUndefined env0 None VNull world0).1 in
  pendingOutbound c = None
  ∧ (length (outbound c) ≤ 1)%nat
  ∧ flow_isDefault flowB = true
  ∧ (getPendingOutbound c).1 = slice [flowB].
Proof.
  intros c.
  destruct (getPendingOutbound_keeps_every_edge c eq_refl) as (_ & Hfew & _).
  assert (length (outbound c) ≤ 1)%nat as Hlength by (simpl; lia).
  split; [reflexivity|]. split; [exact Hlength|]. split; [reflexivity|].
  exact (Hfew Hlength).
Defined.

(** The triggering edge object twice among the inbound edges: one goes. *)
Lemma repeated_trigger_stays_pending :
  let c := (execution join_with_repeated_edge VUndefined env0 (Some flowA)
              VNull world0).1 in
  pendingInbound c = None
  ∧ inbound c = Some [flowA; flowC; flowA]
  ∧ (length (getPendingInbound c).1 + 1 = 3)%nat
  ∧ Some flowC ∈ (getPendingInbound c).1
  ∧ (getPendingInbound c).1 = slice [flowC; flowA].
Proof.
  intros c.
  destruct (getPendingInbound_removes_at_most_one c [flowA; flowC; flowA]
              eq_refl eq_refl) as (_ & Hlength & Hothers).
  split; [reflexivity|]. split; [reflexivity|]. split; [exact Hlength|].
  split; [|reflexivity].
  apply (Hothers flowC); [set_solver|discriminate].
Defined.

Lemma gateway_snapshot_without_pendingInbound :
  let c := (execution gateway VUndefined env0 (Some flowA) VNull world0).1 in
  let target := (getPendingInbound c).2 in
  pendingInbound target = Some (slice [flowC])
  ∧ ∃ snapshot,
      (getState record_form None c world0).1.1 = Normal snapshot
      ∧ obj_props snapshot !! "pendingInbound" = None
      ∧ pendingInbound (applyState (obj_value snapshot) target).2
        = Some (slice [flowC]).
Proof.
  intros c target.
  assert (∀ cached, pendingOutbound c = Some cached → None ∉ cached)
    as Hdefined by (by intros cached [=]).
  destruct (snapshot_leaves_pendingInbound record_form None c world0 Hdefined
              eq_refl eq_refl eq_refl)
    as (snapshot & Hsnapshot & Hnone & Hkept).
  split; [reflexivity|]. exists snapshot.
  split; [exact Hsnapshot|]. split; [exact Hnone|].
  rewrite (Hkept target). reflexivity.
Defined.

Lemma later_output_parameter_wins :
  let c := setResult
             (VObj 50 (<["r" := VNum 1]> {["s" := VNum 2]}))
             (execution task_with_two_outputs VUndefined env0 None VNull
                world0).1 in
  outputParameters c = Some ([result_from_r] ++ result_from_s :: [])
  ∧ parm_name result_from_r = parm_name result_from_s
  ∧ ∃ ref props,
      (getOutput c world0).1.1 = VObj ref props
      ∧ props !! "result" = Some (VNum 2).
Proof.
  intros c.
  assert (parm_name result_from_s ∉ parm_name <$> ([] : list ParameterDescriptor))
    as Hlast by apply not_elem_of_nil.
  destruct (getOutput_last_declaration_wins c world0 [result_from_r]
              result_from_s [] eq_refl Hlast)
    as (ref & props & scope & Hout & _ & Hvalue).
  split; [reflexivity|]. split; [reflexivity|].
  exists ref, props. split; [exact Hout|exact Hvalue].
Defined.

Lemma getOutput_then_getInput :
  let c := (execution task_with_io VUndefined env0 None VNull world0).1 in
  let c' := (getOutput c world0).1.2 in
  outputParameters c = Some [result_from_r]
  ∧ inputResult c = None
  ∧ ∃ input,
      inputResult c' = Some input
      ∧ obj_props input = {["who" := VNum 42]}
      ∧ ∀ w', getInput c' w' = ((input, c'), w').
Proof.
  intros c c'.
  destruct (getOutput_memoizes_input c world0 [result_from_r] eq_refl)
    as (_ & _ & _ & _ & Hmemo).
  destruct (Hmemo (ex_intro _ [who_from_answer] eq_refl)) as [Hresult Hlater].
  split; [reflexivity|]. split; [reflexivity|].
  eexists. split; [exact Hresult|]. split; [reflexivity|exact Hlater].
Defined.

